(** * Tiny Wordy: the speech controller, the word normalizer and the
      navigation of [App.jsx], embedded in Rocq.

    The JavaScript of the application is translated function by function.
    The built-ins the code calls are modelled after ECMA-262 and the HTML
    timers: [Number], [String], property access on arrays,
    [Array.prototype.find] and [Array.prototype.sort] in the module [JS],
    [RegExp.prototype.test] in [RegExp], [setTimeout] and [setInterval] in
    [Timers].  The components of the application follow in the modules
    [Normalizer], [Speech], [Screens] and [Navigation]; their properties
    are proved in the second half of the file. *)

From Stdlib Require Import ZArith NArith Lia Bool List Ascii String.
From Stdlib Require Import Sorting.Sorted Sorting.Permutation.
From Stdlib Require OrderedTypeEx.
From stdpp Require Import base option list strings gmap.

Open Scope Z_scope.

(* ===================================================================== *)
(** * The JavaScript built-ins used by the application                     *)
(* ===================================================================== *)

Module JS.

(** A JavaScript string is a sequence of code units; the model keeps the
    code units below 256, one [ascii] each. *)
Definition chars := list ascii.

Definition code (c : ascii) : N := N_of_ascii c.

(** ** Number values (IEEE 754 binary64)

    Every finite double is an integer multiple of [2^-1074].  [Fin neg n]
    is the double of magnitude [n * 2^-1074] and sign [neg], so that the
    two zeros are [Fin false 0] and [Fin true 0]. *)
Inductive number : Type :=
| NaN
| Inf (neg : bool)
| Fin (neg : bool) (n : N).

Definition number_eqb (x y : number) : bool :=
  match x, y with
  | NaN, NaN => true
  | Inf a, Inf b => Bool.eqb a b
  | Fin a n, Fin b m => Bool.eqb a b && N.eqb n m
  | _, _ => false
  end.

Definition emin : Z := 1074.
Definition unit_scale : Z := 2 ^ emin.
Definition overflow_threshold : Z := 2 ^ (1024 + emin).

(** Nearest integer to [a / b], ties to even ([0 <= a], [0 < b]). *)
Definition round_half_even (a b : Z) : Z :=
  let d := a / b in
  let r := a mod b in
  match 2 * r ?= b with
  | Lt => d
  | Gt => d + 1
  | Eq => if Z.even d then d else d + 1
  end.

(** The double nearest to [a / b] units of [2^-1074]: 53 significant bits,
    round to nearest, ties to even, overflow to infinity. *)
Definition round_units (neg : bool) (a b : Z) : number :=
  let t := a / b in
  let shift := if t <? 2 ^ 53 then 0 else Z.log2 t - 52 in
  let r := round_half_even a (b * 2 ^ shift) * 2 ^ shift in
  if overflow_threshold <=? r then Inf neg else Fin neg (Z.to_N r).

(** The double nearest to the rational [p / q]. *)
Definition round_rational (neg : bool) (p q : Z) : number :=
  round_units neg (p * unit_scale) q.

(** ** StringToNumber (ECMA-262, 7.1.4.1.1) *)

Definition is_white_space (c : ascii) : bool :=
  let n := code c in
  ((9 <=? n) && (n <=? 13) || (n =? 32) || (n =? 160))%N.

Definition is_digit (c : ascii) : bool :=
  let n := code c in ((48 <=? n) && (n <=? 57))%N.

Definition digit_value (c : ascii) : option Z :=
  let n := Z.of_N (code c) in
  if (48 <=? n) && (n <=? 57) then Some (n - 48)
  else if (97 <=? n) && (n <=? 102) then Some (n - 87)
  else if (65 <=? n) && (n <=? 70) then Some (n - 55)
  else None.

Fixpoint drop_white_space (s : chars) : chars :=
  match s with
  | c :: s' => if is_white_space c then drop_white_space s' else s
  | [] => []
  end.

Definition trim (s : chars) : chars :=
  rev (drop_white_space (rev (drop_white_space s))).

Fixpoint span_digits (s : chars) : chars * chars :=
  match s with
  | c :: s' =>
      if is_digit c then let '(ds, rest) := span_digits s' in (c :: ds, rest)
      else ([], s)
  | [] => ([], [])
  end.

(** The value of a digit string in the given radix, [None] when a character
    is not a digit of that radix. *)
Fixpoint radix_value (radix : Z) (acc : Z) (s : chars) : option Z :=
  match s with
  | [] => Some acc
  | c :: s' =>
      match digit_value c with
      | Some d => if d <? radix then radix_value radix (acc * radix + d) s' else None
      | None => None
      end
  end.

Definition decimal_value (ds : chars) : Z :=
  default 0 (radix_value 10 0 ds).

(** ExponentPart_opt followed by the end of the literal. *)
Definition parse_exponent (s : chars) : option Z :=
  match s with
  | [] => Some 0
  | c :: s' =>
      if (code c =? 101)%N || (code c =? 69)%N then
        let '(neg, s'') :=
          match s' with
          | "+"%char :: t => (false, t)
          | "-"%char :: t => (true, t)
          | _ => (false, s')
          end in
        match span_digits s'' with
        | ((_ :: _) as ds, []) =>
            Some (if neg : bool then - decimal_value ds else decimal_value ds)
        | _ => None
        end
      else None
  end.

Definition Infinity_literal : chars := list_ascii_of_string "Infinity".

(** StrUnsignedDecimalLiteral *)
Definition parse_unsigned_decimal (neg : bool) (s : chars) : number :=
  if bool_decide (s = Infinity_literal) then Inf neg else
  let '(ip, rest) := span_digits s in
  let '(fp, rest') :=
    match rest with
    | "."%char :: t => span_digits t
    | _ => ([], rest)
    end in
  match ip ++ fp with
  | [] => NaN
  | ds =>
      match parse_exponent rest' with
      | None => NaN
      | Some e =>
          let m := decimal_value ds in
          let e10 := e - Z.of_nat (length fp) in
          if 0 <=? e10 then round_rational neg (m * 10 ^ e10) 1
          else round_rational neg m (10 ^ (- e10))
      end
  end.

(** NonDecimalIntegerLiteral: [0b], [0o] and [0x] prefixes. *)
Definition parse_non_decimal (s : chars) : option number :=
  match s with
  | "0"%char :: p :: ds =>
      let radix :=
        if (code p =? 120)%N || (code p =? 88)%N then Some 16
        else if (code p =? 111)%N || (code p =? 79)%N then Some 8
        else if (code p =? 98)%N || (code p =? 66)%N then Some 2
        else None in
      match radix, ds with
      | Some r, _ :: _ =>
          Some (match radix_value r 0 ds with
                | Some v => round_rational false v 1
                | None => NaN
                end)
      | Some _, [] => Some NaN
      | None, _ => None
      end
  | _ => None
  end.

Definition StringToNumber (s : chars) : number :=
  match trim s with
  | [] => Fin false 0
  | "+"%char :: t => parse_unsigned_decimal false t
  | "-"%char :: t => parse_unsigned_decimal true t
  | t =>
      match parse_non_decimal t with
      | Some v => v
      | None => parse_unsigned_decimal false t
      end
  end.

(** [Number(value)] applied to a string. *)
Definition Number (s : string) : number :=
  StringToNumber (list_ascii_of_string s).

(** ** Number::toString (ECMA-262, 6.1.6.1.20), radix 10 *)

Fixpoint decimal_digits_from (fuel : nat) (n : Z) (acc : chars) : chars :=
  let acc' := ascii_of_N (Z.to_N (48 + n mod 10)) :: acc in
  match fuel with
  | O => acc'
  | S fuel' => if n <? 10 then acc' else decimal_digits_from fuel' (n / 10) acc'
  end.

(** The decimal digits of a non-negative integer. *)
Definition decimal_digits (n : Z) : chars :=
  decimal_digits_from (Z.to_nat (Z.log2 n)) n [].

(** [pow10_le e u]: [10^e <= u * 2^-1074]. *)
Definition pow10_le (e : Z) (u : Z) : bool :=
  if 0 <=? e then 10 ^ e * unit_scale <=? u
  else unit_scale <=? u * 10 ^ (- e).

(** The largest [e], at most the start value, with [10^e <= u * 2^-1074]. *)
Fixpoint decimal_exponent_from (fuel : nat) (e : Z) (u : Z) : Z :=
  match fuel with
  | O => e
  | S fuel' => if pow10_le e u then e else decimal_exponent_from fuel' (e - 1) u
  end.

(** The search starts just above [log10 (u * 2^-1074)], bounded through the
    binary logarithm of [u] and [log10 2 < 0.30103]. *)
Definition decimal_exponent (u : Z) : Z :=
  decimal_exponent_from 640 ((Z.log2 u + 1 - emin) * 30103 / 100000 + 1) u.

(** The double denoted by the decimal [s * 10^e]. *)
Definition of_decimal (s e : Z) : number :=
  if 0 <=? e then round_rational false (s * 10 ^ e) 1
  else round_rational false s (10 ^ (- e)).

(** The [k]-digit candidate [s] with [s * 10^(n-k)] nearest to
    [u * 2^-1074] among those that denote the double [Fin false u]. *)
Definition digits_candidate (u n k : Z) : option Z :=
  let '(a, b) :=
    if 0 <=? n - k then (u, unit_scale * 10 ^ (n - k))
    else (u * 10 ^ (k - n), unit_scale) in
  let lo := a / b in
  let hi := lo + 1 in
  let ok s := number_eqb (of_decimal s (n - k)) (Fin false (Z.to_N u)) in
  match ok lo, ok hi with
  | true, true =>
      Some match 2 * (a mod b) ?= b with
           | Lt => lo
           | Gt => hi
           | Eq => if Z.even lo then lo else hi
           end
  | true, false => Some lo
  | false, true => Some hi
  | false, false => None
  end.

(** The integers [n], [k], [s] of the algorithm, [k] as small as possible. *)
Fixpoint shortest_from (fuel : nat) (u n k : Z) : Z * Z * Z :=
  match digits_candidate u n k with
  | Some s => if s =? 10 ^ k then (n + 1, k, 10 ^ (k - 1)) else (n, k, s)
  | None =>
      match fuel with
      | O => (n, k, 0)
      | S fuel' => shortest_from fuel' u n (k + 1)
      end
  end.

Definition shortest (u : Z) : Z * Z * Z :=
  shortest_from 17 u (decimal_exponent u + 1) 1.

Definition zeros (n : Z) : chars := repeat "0"%char (Z.to_nat n).

Definition exponent_suffix (n : Z) : chars :=
  let e := n - 1 in
  "e"%char :: (if e <? 0 then "-"%char else "+"%char) :: decimal_digits (Z.abs e).

Definition positive_to_chars (u : Z) : chars :=
  let '(n, k, s) := shortest u in
  let ds := decimal_digits s in
  if (k <=? n) && (n <=? 21) then ds ++ zeros (n - k)
  else if (0 <? n) && (n <=? 21) then
    take (Z.to_nat n) ds ++ "."%char :: drop (Z.to_nat n) ds
  else if (-6 <? n) && (n <=? 0) then
    "0"%char :: "."%char :: zeros (- n) ++ ds
  else if k =? 1 then ds ++ exponent_suffix n
  else take 1 ds ++ "."%char :: drop 1 ds ++ exponent_suffix n.

Definition NumberToString (x : number) : chars :=
  match x with
  | NaN => list_ascii_of_string "NaN"
  | Fin _ 0%N => list_ascii_of_string "0"
  | Inf neg =>
      (if neg then ["-"%char] else []) ++ Infinity_literal
  | Fin neg u =>
      (if neg then ["-"%char] else []) ++ positive_to_chars (Z.of_N u)
  end.

(** ** Property access on an Array with a Number as the key

    [a[n]] converts [n] to a property key with ToString.  The key is an
    array index exactly when [n] is a non-negative integer below [2^32 - 1]
    (the zero of either sign gives the key ["0"]); a key that is not an
    index ("1.5", "-1", "NaN", "Infinity") names no property of an Array,
    and the access yields [undefined], here [None]. *)
Definition to_index (n : number) : option nat :=
  match n with
  | Fin neg u =>
      let u := Z.of_N u in
      if (u mod unit_scale =? 0) && (negb neg || (u =? 0))
         && (u / unit_scale <? 2 ^ 32 - 1)
      then Some (Z.to_nat (u / unit_scale))
      else None
  | _ => None
  end.

Definition array_get {A} (a : list A) (n : number) : option A :=
  i ← to_index n; a !! i.

(** The same index read back from the key itself: a canonical numeric
    string of an integer below [2^32 - 1]. *)
Definition array_index (key : chars) : option nat :=
  match key with
  | [] => None
  | ["0"%char] => Some O
  | "0"%char :: _ => None
  | _ =>
      if forallb is_digit key then
        let i := decimal_value key in
        if i <? 2 ^ 32 - 1 then Some (Z.to_nat i) else None
      else None
  end.

(** The Number of a small non-negative integer. *)
Definition of_nat (i : nat) : number := Fin false (Z.to_N (Z.of_nat i * unit_scale)).

(** ** Subtraction of Number values *)

Definition to_units (neg : bool) (u : N) : Z :=
  if neg then - Z.of_N u else Z.of_N u.

Definition sub (x y : number) : number :=
  match x, y with
  | NaN, _ | _, NaN => NaN
  | Inf a, Inf b => if Bool.eqb a b then NaN else Inf a
  | Inf a, Fin _ _ => Inf a
  | Fin _ _, Inf b => Inf (negb b)
  | Fin a u, Fin b v =>
      let d := to_units a u - to_units b v in
      if d =? 0 then Fin (a && negb b) 0
      else round_units (d <? 0) (Z.abs d) 1
  end.

(** The sign of a Number: [Lt] below zero, [Gt] above, [Eq] for the two
    zeros.  NaN has no sign. *)
Definition sign (v : number) : option comparison :=
  match v with
  | NaN => None
  | Inf neg | Fin neg (Npos _) => Some (if neg then Lt else Gt)
  | Fin _ N0 => Some Eq
  end.

(** The order of the Number values other than NaN; the two zeros are
    equal. *)
Definition compare (x y : number) : comparison :=
  match x, y with
  | Fin a u, Fin b v => to_units a u ?= to_units b v
  | Inf a, Inf b => if a then (if b then Eq else Lt) else (if b then Gt else Eq)
  | Inf a, Fin _ _ => if a then Lt else Gt
  | Fin _ _, Inf b => if b then Gt else Lt
  | _, _ => Eq
  end.

Definition le (x y : number) : Prop :=
  x ≠ NaN ∧ y ≠ NaN ∧ compare x y ≠ Gt.

(** ** Array.prototype.find and Array.prototype.sort *)

(** [a.find(p)]: the first element that satisfies [p], or [undefined]. *)
Definition find {A} (p : A → bool) (a : list A) : option A := List.find p a.

(** SortCompare (ECMA-262, 23.1.3.30.2) for defined elements: the value
    of the comparator, with NaN read as [+0]. *)
Definition SortCompare {A} (comparefn : A → A → number) (x y : A) : comparison :=
  default Eq (sign (comparefn x y)).

(** The order of the result is fixed by the specification when the
    comparator is consistent: the sorted permutation that keeps the
    elements the comparator holds equal in their order.  Insertion from
    the right computes it.  For a comparator that is not consistent the
    specification leaves the order to the implementation; the result of
    this insertion is then one of the orders an engine may give. *)
Fixpoint sort_insert {A} (comparefn : A → A → number) (x : A) (l : list A) : list A :=
  match l with
  | [] => [x]
  | y :: l' =>
      match SortCompare comparefn x y with
      | Gt => y :: sort_insert comparefn x l'
      | _ => x :: l
      end
  end.

Definition sort {A} (comparefn : A → A → number) (l : list A) : list A :=
  foldr (sort_insert comparefn) [] l.

(** [x] may stay before [y] under the comparator. *)
Definition precedes {A} (comparefn : A → A → number) (x y : A) : Prop :=
  SortCompare comparefn x y ≠ Gt.

(** A consistent comparator, on the elements that satisfy [P]. *)
Definition consistent {A} (P : A → Prop) (comparefn : A → A → number) : Prop :=
  (∀ x y, P x → P y → SortCompare comparefn x y = Gt → precedes comparefn y x)
  ∧ (∀ x y z, P x → P y → P z →
       precedes comparefn x y → precedes comparefn y z → precedes comparefn x z).

(** [String(value)] applied to a Number. *)
Definition String (x : number) : string :=
  string_of_list_ascii (NumberToString x).

End JS.

(* ===================================================================== *)
(** * The word-to-speech normalizer                                        *)
(* ===================================================================== *)

Module Normalizer.

Definition words : list string :=
  [ ""; "one"; "two"; "three"; "four"; "five"; "six"; "seven"; "eight";
    "nine"; "ten"; "eleven"; "twelve"; "thirteen"; "fourteen"; "fifteen";
    "sixteen"; "seventeen"; "eighteen"; "nineteen"; "twenty" ]%string.

(** [v || d] where [v] is a string or [undefined]: the empty string and
    [undefined] are falsy. *)
Definition or_else (v : option string) (d : string) : string :=
  match v with
  | Some w => if String.eqb w "" then d else w
  | None => d
  end.

(** [getSpeakText(categoryKey, word)] for a string [word]; [String(word)]
    of a string is the string itself. *)
Definition getSpeakText (categoryKey word : string) : string :=
  if String.eqb categoryKey "letters" then word
  else if String.eqb categoryKey "numbers" then
    let n := JS.Number word in
    or_else (JS.array_get words n) (JS.String n)
  else word.

(** The English cardinal of [k], for [1 <= k <= 20]. *)
Definition cardinal (k : nat) : string := nth k words ""%string.

(** The reference definition of the specification: an integer of
    [[1, 20]] is spoken as its cardinal, every other slug is echoed. *)
Definition toSpeechText (categoryKey slug : string) : string :=
  if String.eqb categoryKey "letters" then slug
  else if String.eqb categoryKey "numbers" then
    match JS.to_index (JS.Number slug) with
    | Some k => if (1 <=? k)%nat && (k <=? 20)%nat then cardinal k else slug
    | None => slug
    end
  else slug.

End Normalizer.

(* ===================================================================== *)
(** * Regular expressions and timers of the host                          *)
(* ===================================================================== *)

Module RegExp.

(** The patterns of the application use literals, concatenation and
    alternation only. *)
Inductive regex : Type :=
| Eps
| Lit (c : ascii)
| Cat (r1 r2 : regex)
| Alt (r1 r2 : regex).

(** The literal pattern of a string. *)
Fixpoint str (s : string) : regex :=
  match s with
  | EmptyString => Eps
  | String c s' => Cat (Lit c) (str s')
  end.

(** Canonicalize of the [i] flag (no [u] flag): the upper case of the
    code unit, when that is again a single code unit and does not map a
    code unit above 127 to one below 128. *)
Definition canonicalize (c : ascii) : N :=
  let n := JS.code c in
  if ((97 <=? n) && (n <=? 122))%N then (n - 32)%N
  else if ((224 <=? n) && (n <=? 254) && negb (n =? 247))%N then (n - 32)%N
  else if (n =? 255)%N then 376%N
  else if (n =? 181)%N then 924%N
  else n.

Definition char_matches (ignore_case : bool) (p c : ascii) : bool :=
  if ignore_case then (canonicalize p =? canonicalize c)%N
  else (JS.code p =? JS.code c)%N.

(** The suffixes left after a match of [r] at the start of [s]. *)
Fixpoint match_prefix (ignore_case : bool) (r : regex) (s : JS.chars)
  : list JS.chars :=
  match r with
  | Eps => [s]
  | Lit p =>
      match s with
      | c :: s' => if char_matches ignore_case p c then [s'] else []
      | [] => []
      end
  | Cat r1 r2 =>
      s' ← match_prefix ignore_case r1 s; match_prefix ignore_case r2 s'
  | Alt r1 r2 => match_prefix ignore_case r1 s ++ match_prefix ignore_case r2 s
  end.

Definition matches_at (ignore_case : bool) (r : regex) (s : JS.chars) : bool :=
  match match_prefix ignore_case r s with
  | [] => false
  | _ :: _ => true
  end.

Fixpoint search (ignore_case : bool) (r : regex) (s : JS.chars) : bool :=
  matches_at ignore_case r s ||
  match s with
  | [] => false
  | _ :: s' => search ignore_case r s'
  end.

(** [/r/i.test(s)]: the pattern is not anchored, a match may start at any
    position. *)
Definition test_i (r : regex) (s : string) : bool :=
  search true r (list_ascii_of_string s).

End RegExp.

Module Timers.

(** [setTimeout], [setInterval], [clearTimeout] and [clearInterval] over a
    clock that counts milliseconds.  Both kinds of timer draw their ids
    from one pool. *)
Section Timers.
Context {C : Type}.

Record timer : Type := {
  tid : nat;
  due : Z;
  period : option Z;
  callback : C
}.

Record timers : Type := {
  clock : Z;
  next_id : nat;
  pending : list timer
}.

Definition empty : timers := {| clock := 0; next_id := 1; pending := [] |}.

Definition setTimeout (cb : C) (delay : Z) (ts : timers) : nat * timers :=
  (next_id ts,
   {| clock := clock ts;
      next_id := S (next_id ts);
      pending := pending ts ++
        [{| tid := next_id ts; due := clock ts + delay;
            period := None; callback := cb |}] |}).

Definition setInterval (cb : C) (delay : Z) (ts : timers) : nat * timers :=
  (next_id ts,
   {| clock := clock ts;
      next_id := S (next_id ts);
      pending := pending ts ++
        [{| tid := next_id ts; due := clock ts + delay;
            period := Some delay; callback := cb |}] |}).

Definition clearTimeout (id : nat) (ts : timers) : timers :=
  {| clock := clock ts;
     next_id := next_id ts;
     pending := filter (fun t => tid t ≠ id) (pending ts) |}.

Definition clearInterval := clearTimeout.

Definition is_due (now : Z) (t : timer) : bool := due t <=? now.

(** A timeout that fired is dropped, an interval is armed again. *)
Definition rearm (now : Z) (t : timer) : list timer :=
  if is_due now t then
    match period t with
    | Some p =>
        [{| tid := tid t; due := due t + Z.max 1 p;
            period := period t; callback := callback t |}]
    | None => []
    end
  else [t].

(** One millisecond passes: the callbacks to run, in the order of
    registration, and the timers that remain. *)
Definition tick (ts : timers) : list C * timers :=
  let now := clock ts + 1 in
  (callback <$> filter (fun t => is_due now t = true) (pending ts),
   {| clock := now;
      next_id := next_id ts;
      pending := t ← pending ts; rearm now t |}).

End Timers.

Arguments timer : clear implicits.
Arguments timers : clear implicits.

End Timers.

(* ===================================================================== *)
(** * The speech controller: [useSpeech]                                   *)
(* ===================================================================== *)

Module Speech.

Record Voice : Type := { name : string; lang : string }.

(** ** Voice selection *)

(** [/Google US English/i] *)
Definition re_google_us_english : RegExp.regex :=
  RegExp.str "Google US English".

(** [/en-US/i] *)
Definition re_en_US : RegExp.regex := RegExp.str "en-US".

(** [/en(-| )US|GB|AU/i]: alternation binds weakest, so the pattern has the
    three alternatives [en(-| )US], [GB] and [AU]. *)
Definition re_english : RegExp.regex :=
  RegExp.Alt
    (RegExp.Cat (RegExp.str "en")
       (RegExp.Cat (RegExp.Alt (RegExp.Lit "-") (RegExp.Lit " "))
          (RegExp.str "US")))
    (RegExp.Alt (RegExp.str "GB") (RegExp.str "AU")).

Definition is_exact (v : Voice) : bool :=
  RegExp.test_i re_google_us_english (name v) && RegExp.test_i re_en_US (lang v).

Definition is_fallback (v : Voice) : bool :=
  RegExp.test_i re_english (lang v).

(** [a || b] on values that are an object or [undefined]/[null]. *)
Definition or_object {A} (a b : option A) : option A :=
  match a with
  | Some _ => a
  | None => b
  end.

(** The value [chooseVoice] stores in [preferredVoiceRef.current], as a
    function of the list [all]. *)
Definition chooseVoice (all : list Voice) : option Voice :=
  let exact := List.find is_exact all in
  let fallback := List.find is_fallback all in
  or_object (or_object (or_object exact fallback) (all !! 0%nat)) None.

(** ** Utterances *)

(** The two closures the controller attaches to an utterance:
    [() => setIsSpeaking(true)] and [() => setIsSpeaking(false)]. *)
Inductive handler : Type :=
| SetIsSpeaking (b : bool).

Definition number_1 : JS.number := Eval vm_compute in JS.Number "1".
Definition number_0_85 : JS.number := Eval vm_compute in JS.Number "0.85".
Definition number_1_05 : JS.number := Eval vm_compute in JS.Number "1.05".

Record Utterance : Type := {
  text : string;
  utter_lang : string;
  rate : JS.number;
  pitch : JS.number;
  volume : JS.number;
  voice : option Voice;
  onstart : option handler;
  onend : option handler
}.

(** [new SpeechSynthesisUtterance(text)], with the defaults of the Web
    Speech API. *)
Definition new_utterance (t : string) : Utterance :=
  {| text := t; utter_lang := ""; rate := number_1; pitch := number_1;
     volume := number_1; voice := None; onstart := None; onend := None |}.

Definition set_lang (l : string) (u : Utterance) : Utterance :=
  {| text := text u; utter_lang := l; rate := rate u; pitch := pitch u;
     volume := volume u; voice := voice u; onstart := onstart u; onend := onend u |}.
Definition set_rate (x : JS.number) (u : Utterance) : Utterance :=
  {| text := text u; utter_lang := utter_lang u; rate := x; pitch := pitch u;
     volume := volume u; voice := voice u; onstart := onstart u; onend := onend u |}.
Definition set_pitch (x : JS.number) (u : Utterance) : Utterance :=
  {| text := text u; utter_lang := utter_lang u; rate := rate u; pitch := x;
     volume := volume u; voice := voice u; onstart := onstart u; onend := onend u |}.
Definition set_volume (x : JS.number) (u : Utterance) : Utterance :=
  {| text := text u; utter_lang := utter_lang u; rate := rate u; pitch := pitch u;
     volume := x; voice := voice u; onstart := onstart u; onend := onend u |}.
Definition set_voice (v : option Voice) (u : Utterance) : Utterance :=
  {| text := text u; utter_lang := utter_lang u; rate := rate u; pitch := pitch u;
     volume := volume u; voice := v; onstart := onstart u; onend := onend u |}.
Definition set_onstart (h : handler) (u : Utterance) : Utterance :=
  {| text := text u; utter_lang := utter_lang u; rate := rate u; pitch := pitch u;
     volume := volume u; voice := voice u; onstart := Some h; onend := onend u |}.
Definition set_onend (h : handler) (u : Utterance) : Utterance :=
  {| text := text u; utter_lang := utter_lang u; rate := rate u; pitch := pitch u;
     volume := volume u; voice := voice u; onstart := onstart u; onend := Some h |}.

(** ** Computations that may throw *)

Inductive completion (A : Type) : Type :=
| Normal (a : A)
| Throw.
Arguments Normal {A} a.
Arguments Throw {A}.

(** A computation over a state [S]: its completion and the state it leaves. *)
Definition M (S A : Type) : Type := S → completion A * S.

Definition ret {S A} (a : A) : M S A := fun s => (Normal a, s).

Definition bind {S A B} (m : M S A) (k : A → M S B) : M S B :=
  fun s =>
    match m s with
    | (Normal a, s') => k a s'
    | (Throw, s') => (Throw, s')
    end.

Definition throw {S A} : M S A := fun s => (Throw, s).
Definition get {S} : M S S := fun s => (Normal s, s).
Definition modify {S} (f : S → S) : M S unit := fun s => (Normal tt, f s).

(** [try { m } catch {}] *)
Definition try_catch {S} (m : M S unit) : M S unit :=
  fun s =>
    match m s with
    | (Throw, s') => (Normal tt, s')
    | r => r
    end.

#[global] Instance M_ret {S} : MRet (M S) := fun A => @ret S A.
#[global] Instance M_bind {S} : MBind (M S) := fun A B k m => @bind S A B m k.

(** ** The speech engine

    [window.speechSynthesis] is a capability of the host.  [E] is the state
    of the engine; each operation the controller uses may change it, and
    [cancel] and [speak] may throw.  [getVoices] is [None] when the engine
    has no such method or returns no list. *)
Record Engine (E : Type) : Type := {
  getVoices : E → option (list Voice);
  speaking : E → bool;
  cancel : M E unit;
  speak : Utterance → M E unit
}.
Arguments getVoices {E}.
Arguments speaking {E}.
Arguments cancel {E}.
Arguments speak {E}.

(** The utterance [speak(t)] hands to the engine when the preferred voice
    is [v]. *)
Definition built_utterance (t : string) (v : option Voice) : Utterance :=
  {| text := t; utter_lang := "en-US"; rate := number_0_85;
     pitch := number_1_05; volume := number_1; voice := v;
     onstart := Some (SetIsSpeaking true);
     onend := Some (SetIsSpeaking false) |}.

(** ** The controller *)

(** The callback of the liveness poll, and the listener of the
    voice-list change. *)
Inductive callback : Type :=
| Poll.

Inductive listener : Type :=
| ChooseVoice.

(** The life of one instance of the hook: rendered, its effect run, its
    cleanup run. *)
Inductive phase : Type :=
| Rendered
| Mounted
| Disposed.

Section Controller.
Context {E : Type}.

Record World : Type := {
  (** [synthRef.current], with the state of the engine *)
  synth : option E;
  (** the [onvoiceschanged] property of the engine *)
  onvoiceschanged : option listener;
  stage : phase;
  isSpeaking : bool;
  preferredVoiceRef : option Voice;
  (** the cleanup closure of the effect, with the interval id it holds *)
  cleanup : option nat;
  timers : Timers.timers callback;
  (** the utterance objects constructed so far, by identity *)
  utterances : list Utterance
}.

Definition with_synth (e : option E) (w : World) : World :=
  {| synth := e; onvoiceschanged := onvoiceschanged w; stage := stage w;
     isSpeaking := isSpeaking w; preferredVoiceRef := preferredVoiceRef w;
     cleanup := cleanup w; timers := timers w; utterances := utterances w |}.
Definition with_onvoiceschanged (l : option listener) (w : World) : World :=
  {| synth := synth w; onvoiceschanged := l; stage := stage w;
     isSpeaking := isSpeaking w; preferredVoiceRef := preferredVoiceRef w;
     cleanup := cleanup w; timers := timers w; utterances := utterances w |}.
Definition with_stage (p : phase) (w : World) : World :=
  {| synth := synth w; onvoiceschanged := onvoiceschanged w; stage := p;
     isSpeaking := isSpeaking w; preferredVoiceRef := preferredVoiceRef w;
     cleanup := cleanup w; timers := timers w; utterances := utterances w |}.
Definition with_isSpeaking (b : bool) (w : World) : World :=
  {| synth := synth w; onvoiceschanged := onvoiceschanged w; stage := stage w;
     isSpeaking := b; preferredVoiceRef := preferredVoiceRef w;
     cleanup := cleanup w; timers := timers w; utterances := utterances w |}.
Definition with_preferredVoice (v : option Voice) (w : World) : World :=
  {| synth := synth w; onvoiceschanged := onvoiceschanged w; stage := stage w;
     isSpeaking := isSpeaking w; preferredVoiceRef := v;
     cleanup := cleanup w; timers := timers w; utterances := utterances w |}.
Definition with_cleanup (c : option nat) (w : World) : World :=
  {| synth := synth w; onvoiceschanged := onvoiceschanged w; stage := stage w;
     isSpeaking := isSpeaking w; preferredVoiceRef := preferredVoiceRef w;
     cleanup := c; timers := timers w; utterances := utterances w |}.
Definition with_timers (ts : Timers.timers callback) (w : World) : World :=
  {| synth := synth w; onvoiceschanged := onvoiceschanged w; stage := stage w;
     isSpeaking := isSpeaking w; preferredVoiceRef := preferredVoiceRef w;
     cleanup := cleanup w; timers := ts; utterances := utterances w |}.
Definition with_utterances (us : list Utterance) (w : World) : World :=
  {| synth := synth w; onvoiceschanged := onvoiceschanged w; stage := stage w;
     isSpeaking := isSpeaking w; preferredVoiceRef := preferredVoiceRef w;
     cleanup := cleanup w; timers := timers w; utterances := us |}.

(** The first render: [useRef(window.speechSynthesis or null)],
    [useState(false)], [useRef(null)]; no effect has run. *)
Definition initial (e : option E) : World :=
  {| synth := e; onvoiceschanged := None; stage := Rendered;
     isSpeaking := false; preferredVoiceRef := None; cleanup := None;
     timers := Timers.empty; utterances := [] |}.

(** The host: the engine, and whether the global
    [SpeechSynthesisUtterance] constructor exists. *)
Variable engine : Engine E.
Variable has_Utterance : bool.

(** [setIsSpeaking(b)]: React drops a state update of an instance that
    is unmounted. *)
Definition setIsSpeaking (b : bool) (w : World) : World :=
  match stage w with
  | Disposed => w
  | _ => with_isSpeaking b w
  end.

Definition run_handler (h : handler) (w : World) : World :=
  match h with
  | SetIsSpeaking b => setIsSpeaking b w
  end.

(** The closure [chooseVoice] of the effect. It exists only when
    [synthRef.current] is not null. *)
Definition run_chooseVoice (w : World) : World :=
  match synth w with
  | Some e =>
      let all := default [] (getVoices engine e) in
      with_preferredVoice (chooseVoice all) w
  | None => w
  end.

Definition run_listener (l : listener) (w : World) : World :=
  match l with
  | ChooseVoice => run_chooseVoice w
  end.

(** The callback of [setInterval]:
    [if (synthRef.current && !synthRef.current.speaking) setIsSpeaking(false)] *)
Definition poll (w : World) : World :=
  match synth w with
  | Some e => if negb (speaking engine e) then setIsSpeaking false w else w
  | None => w
  end.

Definition run_callback (c : callback) (w : World) : World :=
  match c with
  | Poll => poll w
  end.

Definition poll_period : Z := 200.

(** The body of [useEffect(..., [])]. *)
Definition effect (w : World) : World :=
  match synth w with
  | None => w
  | Some _ =>
      let w1 := run_chooseVoice w in
      let w2 := with_onvoiceschanged (Some ChooseVoice) w1 in
      let '(id, ts) := Timers.setInterval Poll poll_period (timers w2) in
      with_cleanup (Some id) (with_timers ts w2)
  end.

(** The function the effect returned. *)
Definition run_cleanup (id : nat) (w : World) : World :=
  let w1 := with_timers (Timers.clearInterval id (timers w)) w in
  match synth w1 with
  | Some _ => with_onvoiceschanged None w1
  | None => w1
  end.

(** *** [speak] *)

(** A call of a method of the engine. *)
Definition engine_call (op : M E unit) : M World unit :=
  fun w =>
    match synth w with
    | Some e => let '(c, e') := op e in (c, with_synth (Some e') w)
    | None => (Throw, w)
    end.

(** [new SpeechSynthesisUtterance(text)]: a ReferenceError when the host
    has no such constructor; otherwise a new object, named by its
    position in the store. *)
Definition construct_utterance (t : string) : M World nat :=
  fun w =>
    if has_Utterance then
      (Normal (length (utterances w)),
       with_utterances (utterances w ++ [new_utterance t]) w)
    else (Throw, w).

(** An assignment to a property of the utterance. *)
Definition assign (id : nat) (f : Utterance → Utterance) : M World unit :=
  modify (fun w => with_utterances (alter f id (utterances w)) w).

Definition speak_body (t : string) : M World unit :=
  w ← get;
  match synth w with
  | None => mret tt
  | Some _ =>
      engine_call (cancel engine);;
      utter ← construct_utterance t;
      assign utter (set_lang "en-US");;
      assign utter (set_rate number_0_85);;
      assign utter (set_pitch number_1_05);;
      assign utter (set_volume number_1);;
      w' ← get;
      match preferredVoiceRef w' with
      | Some v => assign utter (set_voice (Some v))
      | None => mret tt
      end;;
      assign utter (set_onstart (SetIsSpeaking true));;
      assign utter (set_onend (SetIsSpeaking false));;
      w'' ← get;
      match utterances w'' !! utter with
      | Some u => engine_call (speak engine u)
      | None => throw
      end
  end.

(** [const speak = (text) => { try { ... } catch {} }] *)
Definition speak_call (t : string) : M World unit :=
  try_catch (speak_body t).

(** ** What can happen to the controller *)
Inductive event : Type :=
| Mount                         (** React runs the effect *)
| Unmount                       (** React runs the cleanup *)
| Speak (t : string)            (** the component calls [speak(t)] *)
| UtteranceStart (id : nat)     (** the engine fires [start] on an utterance *)
| UtteranceEnd (id : nat)       (** the engine fires [end] on an utterance *)
| VoicesChanged                 (** the engine fires [voiceschanged] *)
| EngineChange (f : E → E)      (** the engine changes by itself *)
| Millisecond.                  (** a millisecond passes *)

Definition fire (h : Utterance → option handler) (id : nat) (w : World) : World :=
  match utterances w !! id with
  | Some u =>
      match h u with
      | Some f => run_handler f w
      | None => w
      end
  | None => w
  end.

Definition step (ev : event) (w : World) : World :=
  match ev with
  | Mount =>
      match stage w with
      | Rendered => effect (with_stage Mounted w)
      | _ => w
      end
  | Unmount =>
      match stage w with
      | Mounted =>
          let w1 := match cleanup w with
                    | Some id => run_cleanup id w
                    | None => w
                    end in
          with_stage Disposed w1
      | _ => w
      end
  | Speak t => snd (speak_call t w)
  | UtteranceStart id => fire onstart id w
  | UtteranceEnd id => fire onend id w
  | VoicesChanged =>
      match onvoiceschanged w with
      | Some l => run_listener l w
      | None => w
      end
  | EngineChange f => with_synth (f <$> synth w) w
  | Millisecond =>
      let '(cbs, ts) := Timers.tick (timers w) in
      foldl (fun w c => run_callback c w) (with_timers ts w) cbs
  end.

Definition run (evs : list event) (w : World) : World :=
  foldl (fun w ev => step ev w) w evs.

(** ** States of the controller *)

(** The part of the world that belongs to the controller. *)
Definition same_controller (w w' : World) : Prop :=
  isSpeaking w' = isSpeaking w
  ∧ preferredVoiceRef w' = preferredVoiceRef w
  ∧ timers w' = timers w
  ∧ onvoiceschanged w' = onvoiceschanged w
  ∧ stage w' = stage w
  ∧ cleanup w' = cleanup w
  ∧ (synth w' = None ↔ synth w = None).

(** The utterances of the store carry the two handlers of [speak]. *)
Definition built (u : Utterance) : Prop :=
  ∃ t v, u = built_utterance t v.

Definition poll_timer (id : nat) (d : Z) : Timers.timer callback :=
  {| Timers.tid := id; Timers.due := d;
     Timers.period := Some poll_period; Timers.callback := Poll |}.

(** The effect has run on a host with an engine: the listener is
    attached and the poll is the one pending timer. *)
Definition polling (w : World) : Prop :=
  stage w = Mounted ∧ synth w ≠ None
  ∧ onvoiceschanged w = Some ChooseVoice
  ∧ ∃ id d, cleanup w = Some id
            ∧ Timers.pending (timers w) = [poll_timer id d].

(** The effect has run on a host without an engine: it returned at once. *)
Definition engineless (w : World) : Prop :=
  stage w = Mounted ∧ synth w = None ∧ cleanup w = None
  ∧ Timers.pending (timers w) = [] ∧ onvoiceschanged w = None.

(** The cleanup has run. *)
Definition disposed (w : World) : Prop :=
  stage w = Disposed ∧ Timers.pending (timers w) = []
  ∧ onvoiceschanged w = None.

(** Mounted with its poll, mounted without an engine, or disposed. *)
Definition alive (w : World) : Prop :=
  polling w ∨ engineless w ∨ disposed w.

End Controller.

Arguments World : clear implicits.
Arguments event : clear implicits.

(** ** Two engines and some voices *)

(** An engine that queues what it is given; [honours_cancel] says whether
    [cancel()] empties the queue or is ignored. *)
Record QueueEngine : Type := {
  voices : list Voice;
  queue : list Utterance
}.

Definition queue_engine (honours_cancel : bool) : Engine QueueEngine :=
  {| getVoices := fun e => Some (voices e);
     speaking := fun e => match queue e with [] => false | _ :: _ => true end;
     cancel := fun e =>
       (Normal tt,
        if honours_cancel then {| voices := voices e; queue := [] |} else e);
     speak := fun u e =>
       (Normal tt, {| voices := voices e; queue := queue e ++ [u] |}) |}.

(** An engine whose [speak] throws. *)
Definition failing_engine : Engine QueueEngine :=
  {| getVoices := fun e => Some (voices e);
     speaking := fun e => match queue e with [] => false | _ :: _ => true end;
     cancel := fun e => (Normal tt, {| voices := voices e; queue := [] |});
     speak := fun _ e => (Throw, e) |}.

Definition silent : QueueEngine := {| voices := []; queue := [] |}.

Definition cat_then_dog : list (event QueueEngine) :=
  [Mount; Speak "cat"; UtteranceStart 0; Speak "dog"].

Definition queued_texts (w : World QueueEngine) : list string :=
  match synth w with
  | Some e => text <$> queue e
  | None => []
  end.

Definition thomas : Voice := {| name := "Thomas"; lang := "fr-FR" |}.
Definition gwyneth : Voice := {| name := "Gwyneth"; lang := "cy-GB" |}.
Definition daniel : Voice := {| name := "Daniel"; lang := "en-GB" |}.
Definition karen : Voice := {| name := "Karen"; lang := "en-AU" |}.
Definition google : Voice :=
  {| name := "Google US English"; lang := "en-US" |}.

End Speech.

(* ===================================================================== *)
(** * The Category screen                                                  *)
(* ===================================================================== *)

Module Screens.

Import Speech.

(** Arrays are objects: a value of array type is a reference into the
    store. *)
Abbreviation loc := positive.

Record Item : Type := {
  slug : string;
  label : string;
  iconUrl : option string
}.

Record CategoryData : Type := {
  key : string;
  category_label : string;
  items : loc
}.

Abbreviation store := (gmap loc (list Item)).

(** [[...a]]: a new array with the elements of [a]. *)
Definition spread (a : loc) : M store loc :=
  fun h =>
    match h !! a with
    | Some xs => let b := fresh (dom h) in (Normal b, <[b := xs]> h)
    | None => (Throw, h)
    end.

(** [a.sort(comparefn)]: sorts [a] in place and returns [a]. *)
Definition array_sort (comparefn : Item → Item → JS.number) (a : loc) : M store loc :=
  fun h =>
    match h !! a with
    | Some xs => (Normal a, <[a := JS.sort comparefn xs]> h)
    | None => (Throw, h)
    end.

Definition read_array (a : loc) : M store (list Item) :=
  fun h =>
    match h !! a with
    | Some xs => (Normal xs, h)
    | None => (Throw, h)
    end.

(** [c.f] for a value [c] that may be [undefined]: a TypeError then. *)
Definition prop {A} (c : option CategoryData) (f : CategoryData → A) : M store A :=
  match c with
  | Some x => mret (f x)
  | None => throw
  end.

(** What a card of the grid shows, and the text its play button hands to
    [speak]. *)
Record Card : Type := {
  card_key : string;
  item_word : string;
  play_text : string
}.

Record View : Type := {
  title : string;
  playing : bool;
  cards : list Card
}.

Section Category.
(** [const CATEGORIES = loadCatalog()]: the loader is not part of these
    sources; the catalog it returns is a parameter. *)
Variable CATEGORIES : list CategoryData.

(** [String.prototype.localeCompare] of the host's locale. *)
Variable localeCompare : string → string → JS.number.

Definition by_number (a b : Item) : JS.number :=
  JS.sub (JS.Number (slug a)) (JS.Number (slug b)).
Definition by_slug (a b : Item) : JS.number :=
  localeCompare (slug a) (slug b).
Definition by_label (a b : Item) : JS.number :=
  localeCompare (label a) (label b).

(** The comparator the screen picks for a category key. *)
Definition comparator (k : string) : Item → Item → JS.number :=
  if String.eqb k "numbers" then by_number
  else if String.eqb k "letters" then by_slug
  else by_label.

(** The immediately invoked function that computes [items]. *)
Definition sorted_items (category : option CategoryData) : M store loc :=
  its ← prop category items;
  base ← spread its;
  k ← prop category key;
  if String.eqb k "numbers" then array_sort by_number base
  else
    k' ← prop category key;
    if String.eqb k' "letters" then array_sort by_slug base
    else array_sort by_label base.

Definition card (category : option CategoryData) (item : Item) : M store Card :=
  k ← prop category key;
  mret {| card_key := slug item;
          item_word := label item;
          play_text := Normalizer.getSpeakText k (slug item) |}.

Fixpoint map_M {A B} (f : A → M store B) (l : list A) : M store (list B) :=
  match l with
  | [] => mret []
  | x :: l' => y ← f x; ys ← map_M f l'; mret (y :: ys)
  end.

(** [Category({ categoryKey, onBack })]: the element it returns, [None]
    for [null]; [isSpeaking] is the signal of [useSpeech]. *)
Definition Category (categoryKey : string) (isSpeaking : bool)
  : M store (option View) :=
  let category := JS.find (fun c => String.eqb (key c) categoryKey) CATEGORIES in
  if negb (bool_decide (is_Some category)) then mret None
  else
    items ← sorted_items category;
    xs ← read_array items;
    cs ← map_M (card category) xs;
    t ← prop category category_label;
    mret (Some {| title := t; playing := isSpeaking; cards := cs |}).

(** [Home({ onOpenCategory })]: the keys its buttons pass to
    [onOpenCategory]. *)
Definition Home_keys : list string := key <$> CATEGORIES.

End Category.

(** The three orders of the screen: the numeric value of the slug, the
    collation of the slug, the collation of the label. *)
Definition in_order (localeCompare : string → string → JS.number) (k : string)
  (a b : Item) : Prop :=
  if String.eqb k "numbers" then JS.le (JS.Number (slug a)) (JS.Number (slug b))
  else if String.eqb k "letters" then JS.precedes localeCompare (slug a) (slug b)
  else JS.precedes localeCompare (label a) (label b).

Definition make_card (k : string) (item : Item) : Card :=
  {| card_key := slug item; item_word := label item;
     play_text := Normalizer.getSpeakText k (slug item) |}.

(** A host whose [localeCompare] orders strings by their code units. *)
Definition ordinal_compare (s t : string) : JS.number :=
  match String.compare s t with
  | Lt => JS.Fin true (Z.to_N JS.unit_scale)
  | Eq => JS.Fin false 0
  | Gt => JS.Fin false (Z.to_N JS.unit_scale)
  end.

(** A catalog with a numbers category whose items are stored out of
    order, and a letters category. *)
Definition sample_catalog : list CategoryData :=
  [ {| key := "numbers"; category_label := "Numbers"; items := 1%positive |};
    {| key := "letters"; category_label := "Letters"; items := 2%positive |} ].

Definition sample_numbers : list Item :=
  [ {| slug := "10"; label := "10"; iconUrl := None |};
    {| slug := "9"; label := "9"; iconUrl := None |};
    {| slug := "2"; label := "2"; iconUrl := None |} ].

Definition sample_letters : list Item :=
  [ {| slug := "b"; label := "B"; iconUrl := None |};
    {| slug := "a"; label := "A"; iconUrl := None |} ].

Definition sample_store : store :=
  <[2%positive := sample_letters]> (<[1%positive := sample_numbers]> ∅).

(** A numbers category in which one slug is no numeral. *)
Definition item_of_slug (s : string) : Item :=
  {| slug := s; label := s; iconUrl := None |}.

Definition mixed_numbers : list Item :=
  item_of_slug <$> ["2"; "x"; "1"]%string.

Definition mixed_store : store :=
  <[1%positive := mixed_numbers]> ∅.

(** A catalog with one category, for the examples. *)
Definition one_category : list CategoryData :=
  [{| key := "colors"; category_label := "Colors";
      items := 1%positive |}].

End Screens.

(* ===================================================================== *)
(** * Navigation: [App] and [Splash]                                       *)
(* ===================================================================== *)

Module Navigation.

Inductive callback : Type :=
| OnDone.   (** [() => setShowSplash(false)] *)

Record App : Type := {
  showSplash : bool;
  screen : string;
  timers : Timers.timers callback;
  (** the cleanup closure of the effect of [Splash], with its timer id *)
  splash_cleanup : option nat;
  (** whether the root has been unmounted *)
  unmounted : bool;
  (** ghost: how often [onDone] has been called *)
  done_calls : nat
}.

Definition initial : App :=
  {| showSplash := true; screen := "home"; timers := Timers.empty;
     splash_cleanup := None; unmounted := false; done_calls := 0 |}.

Definition splash_delay : Z := 2200.

(** The state of the navigation machine that [App] renders. *)
Inductive NavigationState : Type :=
| Splash
| Home
| Category (key : string).

Definition state (a : App) : NavigationState :=
  if showSplash a then Splash
  else if String.eqb (screen a) "home" then Home
  else Category (screen a).

(** The cleanup of the effect of [Splash]: [clearTimeout(t)]. *)
Definition run_splash_cleanup (a : App) : App :=
  match splash_cleanup a with
  | Some t =>
      {| showSplash := showSplash a; screen := screen a;
         timers := Timers.clearTimeout t (timers a);
         splash_cleanup := None; unmounted := unmounted a;
         done_calls := done_calls a |}
  | None => a
  end.

(** [setShowSplash(false)], and the commit that follows: [Splash] leaves
    the tree and its cleanup runs.  React drops the update once the root
    is unmounted. *)
Definition setShowSplash_false (a : App) : App :=
  if unmounted a then a
  else
    run_splash_cleanup
      {| showSplash := false; screen := screen a; timers := timers a;
         splash_cleanup := splash_cleanup a; unmounted := unmounted a;
         done_calls := done_calls a |}.

Definition setScreen (s : string) (a : App) : App :=
  if unmounted a then a
  else
    {| showSplash := showSplash a; screen := s; timers := timers a;
       splash_cleanup := splash_cleanup a; unmounted := unmounted a;
       done_calls := done_calls a |}.

Definition run_callback (c : callback) (a : App) : App :=
  match c with
  | OnDone =>
      setShowSplash_false
        {| showSplash := showSplash a; screen := screen a; timers := timers a;
           splash_cleanup := splash_cleanup a; unmounted := unmounted a;
           done_calls := S (done_calls a) |}
  end.

Inductive event : Type :=
| Start                        (** the root renders [App]; the effect of [Splash] runs *)
| Millisecond                  (** a millisecond passes *)
| OpenCategory (key : string)  (** a button of [Home] calls [onOpenCategory(key)] *)
| Back                         (** the back button of [Category] calls [onBack] *)
| Teardown.                    (** the root is unmounted *)

#[global] Instance event_eq_dec : EqDecision event.
Proof. solve_decision. Defined.

Definition step (ev : event) (a : App) : App :=
  match ev with
  | Start =>
      if unmounted a then a else
      match showSplash a, splash_cleanup a with
      | true, None =>
          let '(t, ts) := Timers.setTimeout OnDone splash_delay (timers a) in
          {| showSplash := showSplash a; screen := screen a; timers := ts;
             splash_cleanup := Some t; unmounted := unmounted a;
             done_calls := done_calls a |}
      | _, _ => a
      end
  | Millisecond =>
      let '(cbs, ts) := Timers.tick (timers a) in
      foldl (fun a c => run_callback c a)
        {| showSplash := showSplash a; screen := screen a; timers := ts;
           splash_cleanup := splash_cleanup a; unmounted := unmounted a;
           done_calls := done_calls a |} cbs
  | OpenCategory k =>
      (* [Home] is in the tree only when the splash is gone and the
         screen is "home" *)
      match state a with
      | Home => setScreen k a
      | _ => a
      end
  | Back =>
      match state a with
      | Category _ => setScreen "home" a
      | _ => a
      end
  | Teardown =>
      if unmounted a then a else
      let a' := run_splash_cleanup a in
      {| showSplash := showSplash a'; screen := screen a'; timers := timers a';
         splash_cleanup := None; unmounted := true; done_calls := done_calls a' |}
  end.

Definition run (evs : list event) (a : App) : App :=
  foldl (fun a ev => step ev a) a evs.

(** The milliseconds that pass in a sequence of events. *)
Fixpoint elapsed (evs : list event) : Z :=
  match evs with
  | [] => 0
  | Millisecond :: evs' => 1 + elapsed evs'
  | _ :: evs' => elapsed evs'
  end.

(** ** States of the application *)

(** The splash is up, its timer is armed, and [n] milliseconds have
    passed since the effect ran. *)
Definition waiting (n : Z) : App :=
  {| showSplash := true; screen := "home";
     timers := {| Timers.clock := n; Timers.next_id := 2;
                  Timers.pending :=
                    [{| Timers.tid := 1%nat; Timers.due := splash_delay;
                        Timers.period := None; Timers.callback := OnDone |}] |};
     splash_cleanup := Some 1%nat; unmounted := false; done_calls := 0 |}.

(** The transition has fired, once, and no timer is left. *)
Definition finished (a : App) : Prop :=
  showSplash a = false ∧ Timers.pending (timers a) = []
  ∧ splash_cleanup a = None ∧ done_calls a = 1%nat.

(** The splash was torn down before the transition: no timer is left and
    [onDone] was never called. *)
Definition cancelled (a : App) : Prop :=
  showSplash a = true ∧ Timers.pending (timers a) = []
  ∧ splash_cleanup a = None ∧ unmounted a = true ∧ done_calls a = 0%nat.

(** The application 2200 milliseconds after its start. *)
Definition home_reached : App := run (Start :: repeat Millisecond 2200) initial.

End Navigation.

(* ===================================================================== *)
(** * More states of the speech controller                                 *)
(* ===================================================================== *)

Module SpeechStates.
Import Speech.

Section States.
Context {E : Type}.

(** The first render, before the effect has run. *)
Definition rendered (w : World E) : Prop :=
  stage w = Rendered ∧ Timers.pending (timers w) = []
  ∧ cleanup w = None ∧ onvoiceschanged w = None.

(** The poll is the one pending timer and is due within its period. *)
Definition armed (w : World E) : Prop :=
  stage w = Mounted
  ∧ ∃ id d, Timers.pending (timers w) = [poll_timer id d]
            ∧ Timers.clock (timers w) < d <= Timers.clock (timers w) + poll_period.

(** A controller on a host without an engine that has done nothing. *)
Definition inert (w : World E) : Prop :=
  synth w = None ∧ isSpeaking w = false ∧ utterances w = []
  ∧ Timers.pending (timers w) = [] ∧ preferredVoiceRef w = None
  ∧ cleanup w = None ∧ onvoiceschanged w = None.

End States.

(** The prosody [speak] gives to every utterance. *)
Definition fixed_prosody (u : Utterance) : Prop :=
  utter_lang u = "en-US"%string
  ∧ JS.String (rate u) = "0.85"%string
  ∧ JS.String (pitch u) = "1.05"%string
  ∧ JS.String (volume u) = "1"%string
  ∧ onstart u = Some (SetIsSpeaking true)
  ∧ onend u = Some (SetIsSpeaking false).

End SpeechStates.

(* ===================================================================== *)
(** * Lookup tables: icons and colours                                     *)
(* ===================================================================== *)

Module Tables.

(** What a property access on one of the table objects yields: a string
    of the table, [undefined], or a value inherited from
    [Object.prototype] (a function, or the prototype itself for
    [__proto__]), named by its key. *)
Inductive value : Type :=
| Undefined
| Text (s : string)
| Inherited (name : string).

(** The property names of [Object.prototype] (ECMA-262, 20.1.3 and B.2.2). *)
Definition Object_prototype : list string :=
  [ "constructor"; "hasOwnProperty"; "isPrototypeOf"; "propertyIsEnumerable";
    "toLocaleString"; "toString"; "valueOf"; "__proto__";
    "__defineGetter__"; "__defineSetter__"; "__lookupGetter__";
    "__lookupSetter__" ]%string.

(** An object literal: the bindings in the order of the source text; a
    later binding of a key replaces an earlier one. *)
Definition object_literal (bindings : list (string * string)) : gmap string string :=
  foldl (fun o kv => <[kv.1 := kv.2]> o) ∅ bindings.

(** [o[k]] on such an object. *)
Definition get (o : gmap string string) (k : string) : value :=
  match o !! k with
  | Some v => Text v
  | None => if bool_decide (k ∈ Object_prototype) then Inherited k else Undefined
  end.

(** [v || d] for a string [d]: [undefined] and the empty string are falsy. *)
Definition or_text (v : value) (d : string) : value :=
  match v with
  | Undefined => Text d
  | Text s => if String.eqb s "" then Text d else v
  | Inherited _ => v
  end.

(** The glyphs are kept as the bytes of the source text. *)
Definition CATEGORY_ICONS_bindings : list (string * string) :=
  [
    ("colors", "🎨"); ("letters", "🔤"); ("numbers", "🔢"); ("machines", "🚗");
    ("fruitveg", "🥕"); ("food", "🍽️"); ("animals", "🐾"); ("jobs", "👩‍🚒")
  ]%string.

Definition CATEGORY_ICONS : gmap string string :=
  object_literal CATEGORY_ICONS_bindings.

(** The table of [itemIcon]. *)
Definition icon_bindings : list (string * string) :=
  [
    ("red", "🟥"); ("orange", "🟧"); ("yellow", "🟨"); ("green", "🟩");
    ("blue", "🟦"); ("purple", "🟪"); ("pink", "🌸"); ("brown", "🟫");
    ("black", "⬛"); ("white", "⬜"); ("gray", "⚫"); ("silver", "🔘");
    ("gold", "🟡"); ("turquoise", "🟢"); ("lime", "🟢"); ("magenta", "🟣");
    ("cyan", "🔵"); ("indigo", "🟣"); ("violet", "🟣"); ("maroon", "🟤");
    ("navy", "🔵"); ("olive", "🟢"); ("teal", "🟢"); ("coral", "🟠");
    ("beige", "🟡"); ("tractor", "🚜"); ("car", "🚗"); ("plane", "✈️");
    ("monster-truck", "🚛"); ("bus", "🚌"); ("truck", "🚚");
    ("motorcycle", "🏍️"); ("bicycle", "🚲"); ("scooter", "🛴"); ("train", "🚂");
    ("boat", "🚤"); ("ship", "🚢"); ("helicopter", "🚁"); ("submarine", "🛸");
    ("tank", "🚗"); ("bulldozer", "🚜"); ("crane", "🏗️"); ("excavator", "🚜");
    ("forklift", "🚜"); ("ambulance", "🚑"); ("fire-truck", "🚒");
    ("police-car", "🚔"); ("taxi", "🚕"); ("van", "🚐"); ("semi-truck", "🚛");
    ("race-car", "🏎️"); ("sailboat", "⛵"); ("yacht", "🛥️");
    ("jet-ski", "🛥️"); ("snowmobile", "🛷"); ("apple", "🍎"); ("banana", "🍌");
    ("orange_fruit", "🍊"); ("grape", "🍇"); ("strawberry", "🍓");
    ("watermelon", "🍉"); ("carrot", "🥕"); ("broccoli", "🥦"); ("tomato", "🍅");
    ("potato", "🥔"); ("pear", "🍐"); ("peach", "🍑"); ("cherry", "🍒");
    ("lemon", "🍋"); ("lime", "🍋"); ("pineapple", "🍍"); ("mango", "🥭");
    ("kiwi", "🥝"); ("avocado", "🥑"); ("cucumber", "🥒"); ("lettuce", "🥬");
    ("onion", "🧅"); ("pepper", "🌶️"); ("corn", "🌽"); ("spinach", "🥬");
    ("cabbage", "🥬"); ("radish", "🥕"); ("beet", "🥕"); ("squash", "🎃");
    ("zucchini", "🥒"); ("bread", "🍞"); ("cheese", "🧀"); ("milk", "🥛");
    ("egg", "🥚"); ("rice", "🍚"); ("noodles", "🍜"); ("pizza", "🍕");
    ("burger", "🍔"); ("soup", "🍲"); ("salad", "🥗"); ("sandwich", "🥪");
    ("pasta", "🍝"); ("cake", "🍰"); ("cookie", "🍪"); ("candy", "🍬");
    ("chocolate", "🍫"); ("ice-cream", "🍦"); ("yogurt", "🥛"); ("butter", "🧈");
    ("jam", "🍯"); ("honey", "🍯"); ("cereal", "🥣"); ("pancake", "🥞");
    ("waffle", "🧇"); ("donut", "🍩"); ("muffin", "🧁"); ("bagel", "🥯");
    ("cracker", "🍪"); ("pretzel", "🥨"); ("popcorn", "🍿"); ("cat", "🐱");
    ("dog", "🐶"); ("bird", "🐦"); ("fish", "🐟"); ("lion", "🦁");
    ("tiger", "🐯"); ("elephant", "🐘"); ("monkey", "🐵"); ("horse", "🐴");
    ("duck", "🦆"); ("cow", "🐄"); ("pig", "🐷"); ("sheep", "🐑"); ("goat", "🐐");
    ("chicken", "🐔"); ("rooster", "🐓"); ("rabbit", "🐰"); ("hamster", "🐹");
    ("mouse", "🐭"); ("squirrel", "🐿️"); ("bear", "🐻"); ("wolf", "🐺");
    ("fox", "🦊"); ("deer", "🦌"); ("giraffe", "🦒"); ("zebra", "🦓");
    ("penguin", "🐧"); ("owl", "🦉"); ("eagle", "🦅"); ("dolphin", "🐬");
    ("whale", "🐋"); ("shark", "🦈"); ("octopus", "🐙"); ("crab", "🦀");
    ("lobster", "🦞"); ("butterfly", "🦋"); ("bee", "🐝"); ("spider", "🕷️");
    ("ant", "🐜"); ("ladybug", "🐞"); ("teacher", "👩‍🏫"); ("doctor", "👨‍⚕️");
    ("nurse", "👩‍⚕️"); ("firefighter", "👩‍🚒"); ("police-officer", "👮");
    ("chef", "👨‍🍳"); ("farmer", "👩‍🌾"); ("artist", "👩‍🎨"); ("driver", "🚗");
    ("engineer", "👨‍💻"); ("scientist", "👩‍🔬"); ("lawyer", "👨‍💼");
    ("judge", "👨‍⚖️"); ("dentist", "👩‍⚕️"); ("veterinarian", "👩‍⚕️");
    ("mechanic", "👨‍🔧"); ("electrician", "👨‍🔧"); ("plumber", "👨‍🔧");
    ("carpenter", "👨‍🔧"); ("architect", "👩‍💼"); ("designer", "👩‍🎨");
    ("photographer", "📷"); ("musician", "🎵"); ("singer", "🎤");
    ("dancer", "💃"); ("actor", "🎭"); ("writer", "✍️"); ("journalist", "📰");
    ("reporter", "📺"); ("librarian", "📚"); ("lifeguard", "🏊");
    ("mailman", "📮"); ("delivery-person", "📦"); ("cashier", "💰");
    ("waiter", "🍽️"); ("barber", "💇"); ("hairdresser", "💇");
    ("cleaner", "🧹"); ("security-guard", "🛡️")
  ]%string.

Definition icon_map : gmap string string := object_literal icon_bindings.

(** The table of [colorValue]. *)
Definition color_bindings : list (string * string) :=
  [
    ("red", "#ff4d4d"); ("orange", "#ffa94d"); ("yellow", "#ffd43b");
    ("green", "#69db7c"); ("blue", "#4dabf7"); ("purple", "#b197fc");
    ("pink", "#ff85c0"); ("brown", "#b08968"); ("black", "#1f1f1f");
    ("white", "#ffffff"); ("gray", "#808080"); ("silver", "#c0c0c0");
    ("gold", "#ffd700"); ("turquoise", "#40e0d0"); ("lime", "#00ff00");
    ("magenta", "#ff00ff"); ("cyan", "#00ffff"); ("indigo", "#4b0082");
    ("violet", "#8a2be2"); ("maroon", "#800000"); ("navy", "#000080");
    ("olive", "#808000"); ("teal", "#008080"); ("coral", "#ff7f50");
    ("beige", "#f5f5dc")
  ]%string.

Definition color_map : gmap string string := object_literal color_bindings.

(** [itemIcon(slug)] in the Category screen of the category [category_key]. *)
Definition itemIcon (category_key slug : string) : value :=
  if String.eqb category_key "letters" then Text slug
  else if String.eqb category_key "numbers" then Text slug
  else if negb (String.eqb category_key "colors") && String.eqb slug "orange"
  then get icon_map "orange_fruit"
  else or_text (get icon_map slug) "🖼️".

(** [colorValue(name)] *)
Definition colorValue (name : string) : value :=
  or_text (get color_map name) "#cccccc".

(** The icon of a category, in [Home] and in the header of the screen. *)
Definition category_icon (k : string) : value :=
  or_text (get CATEGORY_ICONS k) "📁".

(** A CSS colour of the form [#rrggbb]. *)
Definition is_hex_digit (c : ascii) : bool :=
  match JS.digit_value c with
  | Some _ => true
  | None => false
  end.

Definition is_hex_colour (s : string) : bool :=
  match list_ascii_of_string s with
  | "#"%char :: ds => (length ds =? 6)%nat && forallb is_hex_digit ds
  | _ => false
  end.

End Tables.

(* ===================================================================== *)
(** * What the screens show: buttons and pictures                          *)
(* ===================================================================== *)

Module Views.
Import Screens Tables.

(** A button of the grid of [Home]. *)
Record Button : Type := {
  button_key : string;
  aria_label : string;
  button_icon : value;
  onClick : Navigation.event
}.

(** [Home({ onOpenCategory })] under [App]: one button for each category
    of the catalog, in its order; [onOpenCategory] is
    [(key) => setScreen(key)]. *)
Definition Home (CATEGORIES : list CategoryData) : list Button :=
  (fun c => {| button_key := key c;
               aria_label := category_label c;
               button_icon := category_icon (key c);
               onClick := Navigation.OpenCategory (key c) |}) <$> CATEGORIES.

(** The picture of a card: a swatch in the colors category, else the
    image of the item when it has one, with the glyph as its fallback,
    else the glyph. *)
Inductive picture : Type :=
| Swatch (backgroundColor : value)
| Image (src alt : string) (fallback : value)
| Glyph (g : value).

Definition item_picture (category_key : string) (item : Item) : picture :=
  if String.eqb category_key "colors" then Swatch (colorValue (slug item))
  else
    match iconUrl item with
    | Some url =>
        if String.eqb url "" then Glyph (itemIcon category_key (slug item))
        else Image url (label item) (itemIcon category_key (slug item))
    | None => Glyph (itemIcon category_key (slug item))
    end.

End Views.

(* ===================================================================== *)
(** * The listener of [App] and the effect of [Root]                       *)
(* ===================================================================== *)

Module Gestures.
Import Navigation.

(** [App] with the listeners of [document] for [gesturestart].  A
    listener is named by the run of the effect that created it. *)
Record Page : Type := {
  app : App;
  gesturestart : list nat;
  (** the cleanup closure of the effect, with the handler it holds *)
  gesture_cleanup : option nat;
  next_handler : nat
}.

Definition initial : Page :=
  {| app := Navigation.initial; gesturestart := [];
     gesture_cleanup := None; next_handler := 0 |}.

(** [addEventListener] ignores a listener that is registered already. *)
Definition addEventListener (h : nat) (l : list nat) : list nat :=
  if bool_decide (h ∈ l) then l else l ++ [h].

Definition removeEventListener (h : nat) (l : list nat) : list nat :=
  filter (fun x => x ≠ h) l.

(** The body of [useEffect(..., [showSplash])]: nothing while the splash
    shows, else a new handler is registered and its removal returned. *)
Definition effect (p : Page) : Page :=
  if showSplash (app p) then
    {| app := app p; gesturestart := gesturestart p;
       gesture_cleanup := None; next_handler := next_handler p |}
  else
    {| app := app p;
       gesturestart := addEventListener (next_handler p) (gesturestart p);
       gesture_cleanup := Some (next_handler p);
       next_handler := S (next_handler p) |}.

Definition cleanup (p : Page) : Page :=
  match gesture_cleanup p with
  | Some h =>
      {| app := app p; gesturestart := removeEventListener h (gesturestart p);
         gesture_cleanup := None; next_handler := next_handler p |}
  | None => p
  end.

(** An event of the application, and what React does with the effect
    after it: the cleanup when the root is unmounted; the cleanup and the
    effect again when [showSplash] has changed.  On the first render
    [showSplash] is true and the effect returns at once. *)
Definition step (ev : event) (p : Page) : Page :=
  let a' := Navigation.step ev (app p) in
  let p' := {| app := a'; gesturestart := gesturestart p;
               gesture_cleanup := gesture_cleanup p;
               next_handler := next_handler p |} in
  if negb (unmounted (app p)) && unmounted a' then cleanup p'
  else if Bool.eqb (showSplash (app p)) (showSplash a') then p'
  else effect (cleanup p').

Definition run (evs : list event) (p : Page) : Page :=
  foldl (fun p ev => step ev p) p evs.

(** The listener is there exactly while the application is past the
    splash and mounted. *)
Definition listening (p : Page) : Prop :=
  if negb (showSplash (app p)) && negb (unmounted (app p))
  then ∃ h, gesturestart p = [h] ∧ gesture_cleanup p = Some h
  else gesturestart p = [] ∧ gesture_cleanup p = None.

End Gestures.

Module Root.

(** An element of the document, as far as the effect of [Root] sees it. *)
Record Element : Type := {
  tag : string;
  rel : string;
  href : string
}.

Record Window : Type := {
  head : list Element;
  body : list Element;
  (** whether [navigator] has the property [serviceWorker] *)
  serviceWorker : bool;
  (** the listeners of [window] for [load] that register the worker *)
  load_listeners : nat
}.

(** The [link] the effect creates. *)
Definition manifest_link : Element :=
  {| tag := "link"; rel := "manifest"; href := "/manifest.json" |}.

Section Effect.
(** Whether an element matches the selector [link[rel="manifest"]]. *)
Variable is_manifest : Element → bool.

(** [document.querySelector]: the first match in document order. *)
Definition querySelector (w : Window) : option Element :=
  JS.find is_manifest (head w ++ body w).

(** The body of the effect of [Root]. *)
Definition effect (w : Window) : Window :=
  let w1 :=
    match querySelector w with
    | Some _ => w
    | None =>
        {| head := head w ++ [manifest_link]; body := body w;
           serviceWorker := serviceWorker w;
           load_listeners := load_listeners w |}
    end in
  if serviceWorker w1 then
    {| head := head w1; body := body w1; serviceWorker := serviceWorker w1;
       load_listeners := S (load_listeners w1) |}
  else w1.

Definition manifests (w : Window) : list Element :=
  filter (fun e => is_manifest e = true) (head w ++ body w).

End Effect.

End Root.

(* ===================================================================== *)
(** * The floating icons of the splash                                     *)
(* ===================================================================== *)

Module Floating.
Import JS.

(** ** Sums, products and comparisons of Number values *)

(** [x + y] *)
Definition add (x y : number) : number :=
  match x, y with
  | NaN, _ | _, NaN => NaN
  | Inf a, Inf b => if Bool.eqb a b then Inf a else NaN
  | Inf a, Fin _ _ => Inf a
  | Fin _ _, Inf b => Inf b
  | Fin a u, Fin b v =>
      let s := to_units a u + to_units b v in
      if s =? 0 then Fin (a && b) 0
      else round_units (s <? 0) (Z.abs s) 1
  end.

(** [x * y] *)
Definition mul (x y : number) : number :=
  match x, y with
  | NaN, _ | _, NaN => NaN
  | Inf a, Inf b => Inf (xorb a b)
  | Inf a, Fin b v => if (v =? 0)%N then NaN else Inf (xorb a b)
  | Fin a u, Inf b => if (u =? 0)%N then NaN else Inf (xorb a b)
  | Fin a u, Fin b v => round_units (xorb a b) (Z.of_N u * Z.of_N v) unit_scale
  end.

(** [x > y] and [x < y]: false when an operand is NaN. *)
Definition gt (x y : number) : bool :=
  match x, y with
  | NaN, _ | _, NaN => false
  | _, _ => match compare x y with Gt => true | _ => false end
  end.

Definition lt (x y : number) : bool :=
  match x, y with
  | NaN, _ | _, NaN => false
  | _, _ => match compare x y with Lt => true | _ => false end
  end.

(** A value [Math.random()] may return: a Number of [[0, 1)]. *)
Definition unit_interval (x : number) : Prop :=
  ∃ u, x = Fin false u ∧ Z.of_N u < unit_scale.

(** ** The placement of an icon *)

Record Position : Type := {
  top : number;
  left : number
}.

(** The body of the loop: two calls of [Math.random()], the first for
    [top].  [rand] is the sequence of the values [Math.random()] returns
    and [cursor] counts the calls made so far. *)
Definition draw (isMobile : bool) (rand : nat → number) (cursor : nat) : Position :=
  {| top := add (of_nat (if isMobile then 8 else 5))
              (mul (rand cursor) (of_nat (if isMobile then 84 else 90)));
     left := add (of_nat 5) (mul (rand (S cursor)) (of_nat 90)) |}.

Definition avoidMin (isMobile : bool) : number := of_nat (if isMobile then 25 else 35).
Definition avoidMax (isMobile : bool) : number := of_nat (if isMobile then 75 else 65).

(** The first conjunct of the loop condition: the position is in the box
    around the title. *)
Definition in_centre (isMobile : bool) (p : Position) : bool :=
  gt (top p) (avoidMin isMobile) && lt (top p) (avoidMax isMobile)
  && gt (left p) (avoidMin isMobile) && lt (left p) (avoidMax isMobile).

(** [do { ...; tries++ } while (inCentre && tries < 10)], started with
    [tries] tries made; [more] bounds the iterations that can follow, which
    the test [tries < 10] bounds by [10 - tries].  The result is the last
    position, the number of tries and the cursor. *)
Fixpoint place_from (more : nat) (isMobile : bool) (rand : nat → number)
  (cursor tries : nat) : Position * nat * nat :=
  let p := draw isMobile rand cursor in
  let tries' := S tries in
  if in_centre isMobile p && (tries' <? 10)%nat then
    match more with
    | S more' => place_from more' isMobile rand (2 + cursor) tries'
    | O => (p, tries', (2 + cursor)%nat)
    end
  else (p, tries', (2 + cursor)%nat).

Definition place (isMobile : bool) (rand : nat → number) (cursor : nat)
  : Position * nat * nat :=
  place_from 10 isMobile rand cursor 0.

(** [x] lies between the integers [lo] and [hi]. *)
Definition between (lo hi : nat) (x : number) : Prop :=
  le (of_nat lo) x ∧ le x (of_nat hi).

End Floating.

(* ===================================================================== *)
(** * Properties                                                           *)
(* ===================================================================== *)


(** ** Numbers and sorting *)

Module JSFacts.
Import JS.

Lemma round_half_even_lower (a b : Z) : a / b <= round_half_even a b.
Proof.
  unfold round_half_even.
  destruct (2 * (a mod b) ?= b); [destruct (Z.even (a / b))| |]; lia.
Qed.

(** A positive integer of units rounds to a positive double or overflows. *)
Lemma round_units_pos (neg : bool) (a : Z) :
  0 < a → round_units neg a 1 = Inf neg ∨ ∃ p, round_units neg a 1 = Fin neg (Npos p).
Proof.
  intros Ha. unfold round_units.
  rewrite Z.div_1_r, Z.mul_1_l.
  set (shift := if a <? 2 ^ 53 then 0 else Z.log2 a - 52).
  assert (Hshift : 0 <= shift <= Z.log2 a).
  { unfold shift. destruct (Z.ltb_spec a (2 ^ 53)) as [Hlt|Hge].
    - split; [lia | apply Z.log2_nonneg].
    - assert (53 <= Z.log2 a) by (apply Z.log2_le_pow2; lia). lia. }
  assert (Hpow : 0 < 2 ^ shift <= a).
  { split; [apply Z.pow_pos_nonneg; lia|].
    transitivity (2 ^ Z.log2 a); [apply Z.pow_le_mono_r; lia | apply Z.log2_spec; lia]. }
  assert (Hdiv : 1 <= a / 2 ^ shift) by (apply Z.div_le_lower_bound; lia).
  pose proof (round_half_even_lower a (2 ^ shift)) as Hr.
  set (r := round_half_even a (2 ^ shift) * 2 ^ shift).
  assert (Hrpos : 0 < r) by (unfold r; nia).
  destruct (overflow_threshold <=? r); [left; reflexivity|right].
  destruct r as [|p|p]; try lia. exists p. reflexivity.
Qed.

(** The sign of a difference is the order of its operands. *)
Lemma sub_sign (x y : number) :
  x ≠ NaN → y ≠ NaN → default Eq (sign (sub x y)) = compare x y.
Proof.
  intros Hx Hy. destruct x as [|a|a u], y as [|b|b v]; try congruence.
  - destruct a, b; reflexivity.
  - destruct a; reflexivity.
  - destruct b; reflexivity.
  - unfold sub, compare.
    destruct (Z.eqb_spec (to_units a u - to_units b v) 0) as [Hz|Hnz].
    + cbn. symmetry. apply Z.compare_eq_iff. lia.
    + destruct (round_units_pos (to_units a u - to_units b v <? 0)
                  (Z.abs (to_units a u - to_units b v))) as [->|[p ->]];
        [lia| |]; cbn;
        (destruct (Z.ltb_spec (to_units a u - to_units b v) 0);
         symmetry; [apply Z.compare_lt_iff | apply Z.compare_gt_iff]; lia).
Qed.

Lemma compare_antisym (x y : number) : compare y x = CompOpp (compare x y).
Proof.
  destruct x as [|a|a u], y as [|b|b v]; try reflexivity.
  - destruct a, b; reflexivity.
  - destruct a; reflexivity.
  - destruct b; reflexivity.
  - apply Z.compare_antisym.
Qed.

Lemma compare_le_trans (x y z : number) :
  x ≠ NaN → y ≠ NaN → z ≠ NaN →
  compare x y ≠ Gt → compare y z ≠ Gt → compare x z ≠ Gt.
Proof.
  intros Hx Hy Hz.
  destruct x as [|a|a u], y as [|b|b v], z as [|c|c w]; try congruence;
    cbn; repeat match goal with b : bool |- _ => destruct b end;
    try congruence; rewrite ?Z.compare_gt_iff, ?Z.compare_ngt_iff;
    try discriminate; intros; lia.
Qed.

(** A comparator that subtracts Number keys is consistent where no key
    is NaN, and then holds [x] before [y] exactly when the key of [x] is
    at most the key of [y]. *)
Lemma precedes_sub {A} (f : A → number) (x y : A) :
  f x ≠ NaN → f y ≠ NaN →
  (precedes (fun a b => sub (f a) (f b)) x y ↔ le (f x) (f y)).
Proof.
  intros Hx Hy. unfold precedes, SortCompare, le.
  rewrite sub_sign by assumption. tauto.
Qed.

Lemma consistent_sub {A} (f : A → number) :
  consistent (fun a => f a ≠ NaN) (fun a b => sub (f a) (f b)).
Proof.
  split.
  - intros x y Hx Hy. unfold precedes, SortCompare.
    rewrite !sub_sign by assumption. rewrite (compare_antisym (f x) (f y)).
    destruct (compare (f x) (f y)); cbn; congruence.
  - intros x y z Hx Hy Hz. unfold precedes, SortCompare.
    rewrite !sub_sign by assumption. apply compare_le_trans; assumption.
Qed.

Section Sort.
Context {A : Type} (P : A → Prop) (comparefn : A → A → number).
Hypothesis Hcons : consistent P comparefn.

Lemma sort_insert_perm (x : A) (l : list A) :
  Permutation (sort_insert comparefn x l) (x :: l).
Proof.
  induction l as [|y l IH]; cbn; [reflexivity|].
  destruct (SortCompare comparefn x y); try reflexivity.
  rewrite IH. apply perm_swap.
Qed.

Lemma sort_perm (l : list A) : Permutation (sort comparefn l) l.
Proof.
  induction l as [|x l IH]; cbn; [reflexivity|].
  fold (sort comparefn l). rewrite sort_insert_perm, IH. reflexivity.
Qed.

Lemma sort_insert_sorted (x : A) (l : list A) :
  P x → Forall P l →
  StronglySorted (precedes comparefn) l →
  StronglySorted (precedes comparefn) (sort_insert comparefn x l).
Proof.
  destruct Hcons as [Htot Htrans].
  intros Hx Hl Hs. induction Hs as [|y l Hs IH Hy]; cbn.
  - repeat constructor.
  - apply Forall_cons in Hl as [Py Pl].
    destruct (SortCompare comparefn x y) eqn:Hc.
    + constructor; [constructor; assumption|].
      assert (Hxy : precedes comparefn x y) by (unfold precedes; congruence).
      constructor; [exact Hxy|].
      rewrite Forall_forall in *. intros z Hz.
      apply (Htrans x y z); auto.
    + constructor; [constructor; assumption|].
      assert (Hxy : precedes comparefn x y) by (unfold precedes; congruence).
      constructor; [exact Hxy|].
      rewrite Forall_forall in *. intros z Hz.
      apply (Htrans x y z); auto.
    + constructor; [apply IH; assumption|].
      rewrite (sort_insert_perm x l).
      constructor; [apply Htot; assumption | assumption].
Qed.

Lemma sort_sorted (l : list A) :
  Forall P l → StronglySorted (precedes comparefn) (sort comparefn l).
Proof.
  induction l as [|x l IH]; intros Hl; cbn; [constructor|].
  apply Forall_cons in Hl as [Px Pl]. fold (sort comparefn l).
  apply sort_insert_sorted; [assumption | | apply IH; assumption].
  rewrite sort_perm. assumption.
Qed.
End Sort.

End JSFacts.

(** ** The normalizer *)

Module NormalizerFacts.
Import Normalizer.

Lemma or_else_words (k : nat) (d : string) :
  or_else (words !! k) d =
  if (1 <=? k)%nat && (k <=? 20)%nat then cardinal k else d.
Proof.
  unfold cardinal.
  do 21 (destruct k as [|k]; [reflexivity|]).
  reflexivity.
Qed.

(** The key ToString gives to the Numbers 0..20 is the index [to_index]
    reads from them. *)
Lemma array_index_of_small :
  (fun i => JS.array_index (JS.NumberToString (JS.of_nat i))) <$> seq 0 21
  = Some <$> seq 0 21
  ∧ (fun i => JS.to_index (JS.of_nat i)) <$> seq 0 21 = Some <$> seq 0 21.
Proof. vm_compute. split; reflexivity. Qed.

(** Keys that are no index. *)
Lemma array_index_of_others :
  (fun s => JS.array_index (JS.NumberToString (JS.Number s)))
    <$> ["abc"; "1.5"; "-1"; "Infinity"; "1e21"]%string
  = [None; None; None; None; None]
  ∧ (fun s => JS.to_index (JS.Number s))
      <$> ["abc"; "1.5"; "-1"; "Infinity"; "1e21"]%string
    = [None; None; None; None; None].
Proof. vm_compute. split; reflexivity. Qed.

(** These decimal numerals outside [[1, 20]] are echoed; other spellings
    of a Number are not. *)
Lemma getSpeakText_numerals :
  getSpeakText "numbers" <$> ["0"; "21"; "22"; "30"; "100"; "1000"]%string
  = ["0"; "21"; "22"; "30"; "100"; "1000"]%string
  ∧ getSpeakText "numbers" "021" = "21"%string
  ∧ getSpeakText "numbers" "" = "0"%string
  ∧ getSpeakText "numbers" " 7 " = "seven"%string.
Proof. vm_compute. repeat split. Qed.

(** C2, as the specification states it, fails: a slug of the numbers
    category that is not a numeral is not echoed, the text is the string
    form of the Number it was converted to. *)
Lemma getSpeakText_not_echo :
  JS.Number "abc" = JS.NaN
  ∧ getSpeakText "numbers" "abc" = "NaN"%string
  ∧ getSpeakText "numbers" "abc" ≠ toSpeechText "numbers" "abc".
Proof. vm_compute. split; [reflexivity|]. split; [reflexivity|]. discriminate. Qed.

(** C2 (amended): [getSpeakText] is a total function; it returns the word
    unchanged for the letters category and for every category other than
    numbers; for the numbers category it converts the word with [Number]
    and returns the cardinal when the Number is an integer of [[1, 20]],
    and otherwise the string form of that Number, [String(Number(word))].
    That string need not be the word, not even for a decimal numeral:
    "abc" gives "NaN", "021" gives "21", "9007199254740993" gives
    "9007199254740992" and "1000000000000000000000" gives "1e+21".  The
    five examples of the specification hold. *)
Theorem getSpeakText_spec :
  (∀ categoryKey word : string,
     getSpeakText categoryKey word =
     if String.eqb categoryKey "letters" then word
     else if String.eqb categoryKey "numbers" then
       match JS.to_index (JS.Number word) with
       | Some k =>
           if (1 <=? k)%nat && (k <=? 20)%nat then cardinal k
           else JS.String (JS.Number word)
       | None => JS.String (JS.Number word)
       end
     else word)
  ∧ getSpeakText "numbers" "7" = "seven"%string
  ∧ getSpeakText "numbers" "20" = "twenty"%string
  ∧ getSpeakText "numbers" "21" = "21"%string
  ∧ getSpeakText "letters" "b" = "b"%string
  ∧ getSpeakText "colors" "red" = "red"%string
  ∧ getSpeakText "numbers" "abc" = "NaN"%string
  ∧ getSpeakText "numbers" "021" = "21"%string
  ∧ getSpeakText "numbers" "9007199254740993" = "9007199254740992"%string
  ∧ getSpeakText "numbers" "1000000000000000000000" = "1e+21"%string.
Proof.
  split.
  - intros categoryKey word. unfold getSpeakText.
    destruct (String.eqb categoryKey "letters"); [reflexivity|].
    destruct (String.eqb categoryKey "numbers"); [|reflexivity].
    unfold JS.array_get.
    destruct (JS.to_index (JS.Number word)) as [k|]; simpl; [|reflexivity].
    apply or_else_words.
  - vm_compute. repeat split.
Qed.

End NormalizerFacts.



(** ** The speech controller *)

Module SpeechFacts.
Import Speech.

Section ControllerFacts.
Context {E : Type}.
Variable engine : Engine E.
Variable has_Utterance : bool.

Local Abbreviation step := (Speech.step engine has_Utterance).
Local Abbreviation run := (Speech.run engine has_Utterance).
Local Abbreviation speak_call := (Speech.speak_call engine has_Utterance).
Local Abbreviation speak_body := (Speech.speak_body engine has_Utterance).

Lemma alter_last (f : Utterance → Utterance) (us : list Utterance) (u : Utterance) :
  alter f (length us) (us ++ [u]) = us ++ [f u].
Proof.
  induction us as [|x us IH]; [reflexivity|].
  cbn. f_equal. exact IH.
Qed.

(** What the body of [speak] does when the engine is there. *)
Lemma speak_body_run (t : string) (w : World E) (e : E) :
  synth w = Some e →
  speak_body t w =
  match cancel engine e with
  | (Throw, e1) => (Throw, with_synth (Some e1) w)
  | (Normal _, e1) =>
      if has_Utterance then
        let u := built_utterance t (preferredVoiceRef w) in
        let '(c, e2) := speak engine u e1 in
        (c, with_synth (Some e2)
              (with_utterances (utterances w ++ [u]) w))
      else (Throw, with_synth (Some e1) w)
  end.
Proof.
  intros Hs. unfold Speech.speak_body.
  cbv beta iota zeta delta [mbind M_bind bind mret M_ret ret get].
  rewrite Hs. unfold engine_call. rewrite Hs.
  destruct (cancel engine e) as [[[]|] e1]; [|reflexivity].
  unfold construct_utterance.
  destruct has_Utterance; [|reflexivity].
  unfold assign, modify. cbn [utterances with_synth with_utterances preferredVoiceRef].
  rewrite !alter_last. cbn [new_utterance set_lang set_rate set_pitch set_volume].
  destruct (preferredVoiceRef w) as [v|]; cbn [utterances with_utterances];
    rewrite ?alter_last; rewrite lookup_app_r by reflexivity;
    rewrite Nat.sub_diag; cbn [lookup list_lookup synth with_synth with_utterances];
    (destruct (speak engine _ e1) as [c e2]; destruct w; reflexivity).
Qed.

Lemma speak_body_absent (t : string) (w : World E) :
  synth w = None → speak_body t w = (Normal tt, w).
Proof.
  intros Hs. unfold Speech.speak_body.
  cbv beta iota zeta delta [mbind M_bind bind mret M_ret ret get].
  rewrite Hs. reflexivity.
Qed.

(** [speak] itself, with the exception caught. *)
Lemma speak_call_run (t : string) (w : World E) (e : E) :
  synth w = Some e →
  speak_call t w =
  match cancel engine e with
  | (Throw, e1) => (Normal tt, with_synth (Some e1) w)
  | (Normal _, e1) =>
      if has_Utterance then
        let u := built_utterance t (preferredVoiceRef w) in
        (Normal tt,
         with_synth (Some (snd (speak engine u e1)))
           (with_utterances (utterances w ++ [u]) w))
      else (Normal tt, with_synth (Some e1) w)
  end.
Proof.
  intros Hs. unfold Speech.speak_call, try_catch.
  rewrite (speak_body_run t w e Hs).
  destruct (cancel engine e) as [[[]|] e1]; [|reflexivity].
  destruct has_Utterance; [|reflexivity].
  cbv zeta. destruct (speak engine _ e1) as [[[]|] e2]; reflexivity.
Qed.

Lemma speak_call_absent (t : string) (w : World E) :
  synth w = None → speak_call t w = (Normal tt, w).
Proof.
  intros Hs. unfold Speech.speak_call, try_catch.
  rewrite (speak_body_absent t w Hs). reflexivity.
Qed.

Lemma speak_call_frame (t : string) (w : World E) :
  fst (speak_call t w) = Normal tt
  ∧ same_controller w (snd (speak_call t w))
  ∧ (utterances (snd (speak_call t w)) = utterances w
     ∨ utterances (snd (speak_call t w)) =
       utterances w ++ [built_utterance t (preferredVoiceRef w)]).
Proof.
  unfold same_controller.
  destruct (synth w) as [e|] eqn:Hs.
  - rewrite (speak_call_run t w e Hs).
    destruct (cancel engine e) as [[[]|] e1]; [destruct has_Utterance|];
      cbn; (split; [reflexivity|]); (split; [|auto]);
      repeat split; intros; congruence.
  - rewrite (speak_call_absent t w Hs). cbn.
    split; [reflexivity|]. split; [|auto]. repeat split; auto.
Qed.

(** *** The poll *)

Lemma setIsSpeaking_false (w : World E) :
  isSpeaking (setIsSpeaking false w) = true → isSpeaking w = true.
Proof. unfold setIsSpeaking. destruct (stage w); cbn; congruence. Qed.

Lemma poll_not_raise (w : World E) :
  isSpeaking (poll engine w) = true → isSpeaking w = true.
Proof.
  unfold poll. destruct (synth w) as [e|]; [|trivial].
  destruct (speaking engine e); cbn [negb]; [trivial|].
  apply setIsSpeaking_false.
Qed.

Lemma poll_idle (w : World E) (e : E) :
  synth w = Some e → speaking engine e = false → stage w ≠ Disposed →
  isSpeaking (poll engine w) = false.
Proof.
  intros Hs He Hst. unfold poll. rewrite Hs, He. cbn [negb].
  unfold setIsSpeaking. destruct (stage w); [reflexivity..|congruence].
Qed.

Lemma poll_frame (w : World E) :
  preferredVoiceRef (poll engine w) = preferredVoiceRef w
  ∧ timers (poll engine w) = timers w
  ∧ onvoiceschanged (poll engine w) = onvoiceschanged w
  ∧ stage (poll engine w) = stage w
  ∧ cleanup (poll engine w) = cleanup w
  ∧ synth (poll engine w) = synth w
  ∧ utterances (poll engine w) = utterances w.
Proof.
  unfold poll, setIsSpeaking.
  destruct (synth w) as [e|] eqn:Hs; [|repeat split; congruence].
  destruct (speaking engine e); cbn [negb]; [repeat split; congruence|].
  destruct (stage w) eqn:Hst; repeat split; cbn; congruence.
Qed.

Lemma callbacks_not_raise (cbs : list callback) (w : World E) :
  isSpeaking (foldl (fun w c => run_callback engine c w) w cbs) = true →
  isSpeaking w = true.
Proof.
  revert w. induction cbs as [|[] cbs IH]; intros w; cbn; [trivial|].
  intros H. apply poll_not_raise, IH, H.
Qed.

Lemma callbacks_frame (cbs : list callback) (w : World E) :
  let w' := foldl (fun w c => run_callback engine c w) w cbs in
  preferredVoiceRef w' = preferredVoiceRef w
  ∧ timers w' = timers w
  ∧ onvoiceschanged w' = onvoiceschanged w
  ∧ stage w' = stage w
  ∧ cleanup w' = cleanup w
  ∧ synth w' = synth w
  ∧ utterances w' = utterances w.
Proof.
  revert w. induction cbs as [|[] cbs IH]; intros w; cbn; [repeat split|].
  specialize (IH (poll engine w)). cbv zeta in IH.
  pose proof (poll_frame w). intuition congruence.
Qed.

Lemma callbacks_disposed (cbs : list callback) (w : World E) :
  stage w = Disposed →
  isSpeaking (foldl (fun w c => run_callback engine c w) w cbs) = isSpeaking w.
Proof.
  revert w. induction cbs as [|[] cbs IH]; intros w Hst; cbn; [reflexivity|].
  assert (Hp : poll engine w = w).
  { unfold poll, setIsSpeaking. rewrite Hst.
    destruct (synth w) as [e|]; [|reflexivity].
    destruct (speaking engine e); reflexivity. }
  rewrite Hp. apply IH, Hst.
Qed.

(** *** The life of the controller *)

Lemma millisecond_polling (w : World E) (id : nat) (d : Z) :
  Timers.pending (timers w) = [poll_timer id d] →
  step Millisecond w =
  if d <=? Timers.clock (timers w) + 1
  then poll engine
         (with_timers
            {| Timers.clock := Timers.clock (timers w) + 1;
               Timers.next_id := Timers.next_id (timers w);
               Timers.pending := [poll_timer id (d + 200)] |} w)
  else with_timers
         {| Timers.clock := Timers.clock (timers w) + 1;
            Timers.next_id := Timers.next_id (timers w);
            Timers.pending := [poll_timer id d] |} w.
Proof.
  intros Hp. unfold Speech.step, Timers.tick. rewrite Hp. cbn.
  unfold Timers.rearm, Timers.is_due. cbn.
  destruct (d <=? Timers.clock (timers w) + 1) eqn:Hdue.
  - rewrite decide_True by reflexivity. reflexivity.
  - rewrite decide_False by discriminate. reflexivity.
Qed.

Lemma millisecond_no_timers (w : World E) :
  Timers.pending (timers w) = [] →
  step Millisecond w =
  with_timers
    {| Timers.clock := Timers.clock (timers w) + 1;
       Timers.next_id := Timers.next_id (timers w);
       Timers.pending := [] |} w.
Proof.
  intros Hp. unfold Speech.step, Timers.tick. rewrite Hp. reflexivity.
Qed.

Lemma mount_polling (e : E) : polling (step Mount (initial (Some e))).
Proof.
  repeat split; [discriminate|]. exists 1%nat, 200. split; reflexivity.
Qed.

Lemma mount_engineless : engineless (step Mount (initial None)).
Proof. repeat split. Qed.

Lemma fire_frame (h : Utterance → option handler) (id : nat) (w : World E) :
  preferredVoiceRef (fire h id w) = preferredVoiceRef w
  ∧ timers (fire h id w) = timers w
  ∧ onvoiceschanged (fire h id w) = onvoiceschanged w
  ∧ stage (fire h id w) = stage w
  ∧ cleanup (fire h id w) = cleanup w
  ∧ synth (fire h id w) = synth w
  ∧ utterances (fire h id w) = utterances w.
Proof.
  unfold fire. destruct (utterances w !! id) as [u|]; [|repeat split].
  destruct (h u) as [[b]|]; [|repeat split].
  unfold run_handler, setIsSpeaking.
  destruct (stage w) eqn:Hst; repeat split; cbn; congruence.
Qed.

Lemma chooseVoice_frame (w : World E) :
  isSpeaking (run_chooseVoice engine w) = isSpeaking w
  ∧ timers (run_chooseVoice engine w) = timers w
  ∧ onvoiceschanged (run_chooseVoice engine w) = onvoiceschanged w
  ∧ stage (run_chooseVoice engine w) = stage w
  ∧ cleanup (run_chooseVoice engine w) = cleanup w
  ∧ synth (run_chooseVoice engine w) = synth w
  ∧ utterances (run_chooseVoice engine w) = utterances w.
Proof.
  unfold run_chooseVoice.
  destruct (synth w) as [e|] eqn:Hs; repeat split; cbn; congruence.
Qed.

Lemma polling_step (ev : event E) (w : World E) :
  ev ≠ Unmount → polling w → polling (step ev w).
Proof.
  intros Hev (Hst & Hs & Hl & id & d & Hc & Hp).
  destruct ev; try congruence.
  - cbn. rewrite Hst. repeat split; eauto.
  - pose proof (speak_call_frame t w) as (_ & Hf & _).
    destruct Hf as (_ & _ & Ht & Hl' & Hst' & Hc' & Hs').
    cbn [Speech.step]. repeat split; try congruence; [tauto|].
    exists id, d. split; congruence.
  - pose proof (fire_frame onstart id0 w) as (_ & Ht & Hl' & Hst' & Hc' & Hs' & _).
    cbn [Speech.step]. repeat split; try congruence.
    exists id, d. split; congruence.
  - pose proof (fire_frame onend id0 w) as (_ & Ht & Hl' & Hst' & Hc' & Hs' & _).
    cbn [Speech.step]. repeat split; try congruence.
    exists id, d. split; congruence.
  - cbn [Speech.step]. rewrite Hl. cbn [run_listener].
    pose proof (chooseVoice_frame w) as (_ & Ht & Hl' & Hst' & Hc' & Hs' & _).
    repeat split; try congruence.
    exists id, d. split; congruence.
  - cbn. repeat split; auto.
    + destruct (synth w); [discriminate | congruence].
    + eauto.
  - rewrite (millisecond_polling w id d Hp).
    destruct (d <=? Timers.clock (timers w) + 1).
    + match goal with |- polling (poll engine ?x) =>
        pose proof (poll_frame x) as (_ & Ht & Hl' & Hst' & Hc' & Hs' & _) end.
      cbn in *. repeat split; try congruence.
      exists id, (d + 200). split; [congruence | rewrite Ht; reflexivity].
    + cbn. repeat split; auto. exists id, d. split; [assumption | reflexivity].
Qed.

Lemma polling_unmount (w : World E) : polling w → disposed (step Unmount w).
Proof.
  intros (Hst & Hs & Hl & id & d & Hc & Hp).
  cbn. rewrite Hst, Hc. unfold run_cleanup. cbn.
  destruct (synth w) as [e|]; [|congruence].
  unfold disposed, Timers.clearInterval, Timers.clearTimeout. cbn.
  rewrite Hp. cbn. rewrite decide_False by (cbn; congruence).
  repeat split.
Qed.

Lemma engineless_step (ev : event E) (w : World E) :
  ev ≠ Unmount → engineless w → engineless (step ev w).
Proof.
  intros Hev (Hst & Hs & Hc & Hp & Hl).
  destruct ev; try congruence.
  - cbn. rewrite Hst. repeat split; assumption.
  - cbn [Speech.step]. rewrite (speak_call_absent t w Hs). repeat split; assumption.
  - pose proof (fire_frame onstart id w) as (_ & Ht & Hl' & Hst' & Hc' & Hs' & _).
    cbn [Speech.step]. repeat split; congruence.
  - pose proof (fire_frame onend id w) as (_ & Ht & Hl' & Hst' & Hc' & Hs' & _).
    cbn [Speech.step]. repeat split; congruence.
  - cbn [Speech.step]. rewrite Hl. repeat split; assumption.
  - cbn. rewrite Hs. repeat split; assumption.
  - rewrite (millisecond_no_timers w Hp). repeat split; assumption.
Qed.

Lemma engineless_unmount (w : World E) : engineless w → disposed (step Unmount w).
Proof.
  intros (Hst & Hs & Hc & Hp & Hl).
  cbn. rewrite Hst, Hc. repeat split; assumption.
Qed.

(** After the cleanup nothing moves the controller any more. *)
Lemma disposed_step (ev : event E) (w : World E) :
  disposed w →
  disposed (step ev w)
  ∧ isSpeaking (step ev w) = isSpeaking w
  ∧ preferredVoiceRef (step ev w) = preferredVoiceRef w.
Proof.
  intros (Hst & Hp & Hl).
  destruct ev.
  - cbn. rewrite Hst. repeat split; assumption.
  - cbn. rewrite Hst. repeat split; assumption.
  - pose proof (speak_call_frame t w) as (_ & Hf & _).
    destruct Hf as (Hi & Hv & Ht & Hl' & Hst' & _).
    cbn [Speech.step]. repeat split; congruence.
  - cbn [Speech.step]. unfold fire.
    destruct (utterances w !! id) as [u|]; [|repeat split; assumption].
    destruct (onstart u) as [[b]|]; [|repeat split; assumption].
    unfold run_handler, setIsSpeaking. rewrite Hst. repeat split; assumption.
  - cbn [Speech.step]. unfold fire.
    destruct (utterances w !! id) as [u|]; [|repeat split; assumption].
    destruct (onend u) as [[b]|]; [|repeat split; assumption].
    unfold run_handler, setIsSpeaking. rewrite Hst. repeat split; assumption.
  - cbn [Speech.step]. rewrite Hl. repeat split; assumption.
  - cbn. repeat split; assumption.
  - rewrite (millisecond_no_timers w Hp). repeat split; assumption.
Qed.

Lemma disposed_run (evs : list (event E)) (w : World E) :
  disposed w →
  disposed (run evs w)
  ∧ isSpeaking (run evs w) = isSpeaking w
  ∧ preferredVoiceRef (run evs w) = preferredVoiceRef w.
Proof.
  revert w. induction evs as [|ev evs IH]; intros w Hd; [repeat split; apply Hd|].
  destruct (disposed_step ev w Hd) as (Hd' & Hi & Hv).
  destruct (IH (step ev w) Hd') as (Hd'' & Hi' & Hv').
  change (run (ev :: evs) w) with (run evs (step ev w)).
  repeat split; try apply Hd''; congruence.
Qed.

Lemma run_app (evs1 evs2 : list (event E)) (w : World E) :
  run (evs1 ++ evs2) w = run evs2 (run evs1 w).
Proof. apply foldl_app. Qed.

Lemma run_invariant (P : World E → Prop) (evs : list (event E)) (w : World E) :
  (∀ ev w, P w → P (step ev w)) → P w → P (run evs w).
Proof.
  intros Hstep. revert w.
  induction evs as [|ev evs IH]; intros w Hw; [exact Hw|].
  apply IH, Hstep, Hw.
Qed.

Lemma polling_run (evs : list (event E)) (w : World E) :
  Unmount ∉ evs → polling w → polling (run evs w).
Proof.
  revert w. induction evs as [|ev evs IH]; intros w Hno Hw; [exact Hw|].
  apply IH; [intros H; apply Hno; right; exact H|].
  apply polling_step; [intros ->; apply Hno; left | exact Hw].
Qed.

Lemma alive_step (ev : event E) (w : World E) : alive w → alive (step ev w).
Proof.
  intros [Hw|[Hw|Hw]].
  - destruct ev;
      try (left; apply polling_step; [discriminate | exact Hw]).
    right; right. apply polling_unmount, Hw.
  - destruct ev;
      try (right; left; apply engineless_step; [discriminate | exact Hw]).
    right; right. apply engineless_unmount, Hw.
  - right; right. apply disposed_step, Hw.
Qed.

Lemma alive_unmount (w : World E) : alive w → disposed (step Unmount w).
Proof.
  intros [Hw|[Hw|Hw]].
  - apply polling_unmount, Hw.
  - apply engineless_unmount, Hw.
  - apply disposed_step, Hw.
Qed.

Lemma mount_alive (e : option E) : alive (step Mount (initial e)).
Proof.
  destruct e as [e|]; [left; apply mount_polling | right; left; apply mount_engineless].
Qed.

(** *** Who can raise the signal *)

Lemma effect_frame (w : World E) :
  isSpeaking (effect engine w) = isSpeaking w
  ∧ utterances (effect engine w) = utterances w.
Proof.
  unfold effect. destruct (synth w) as [e|] eqn:Hs; [|split; reflexivity].
  unfold run_chooseVoice. rewrite Hs. split; reflexivity.
Qed.

Lemma run_cleanup_frame (id : nat) (w : World E) :
  isSpeaking (run_cleanup id w) = isSpeaking w
  ∧ utterances (run_cleanup id w) = utterances w.
Proof.
  unfold run_cleanup. cbn. destruct (synth w); split; reflexivity.
Qed.

Lemma built_step (ev : event E) (w : World E) :
  Forall built (utterances w) → Forall built (utterances (step ev w)).
Proof.
  intros Hb. destruct ev.
  - cbn. destruct (stage w); [|exact Hb..].
    destruct (effect_frame (with_stage Mounted w)) as (_ & ->). exact Hb.
  - cbn. destruct (stage w); [exact Hb| |exact Hb].
    destruct (cleanup w) as [id|]; [|exact Hb].
    cbn. destruct (run_cleanup_frame id w) as (_ & ->). exact Hb.
  - cbn [Speech.step].
    pose proof (speak_call_frame t w) as (_ & _ & [->| ->]); [exact Hb|].
    apply Forall_app. split; [exact Hb|].
    constructor; [eexists _, _; reflexivity | constructor].
  - cbn [Speech.step]. pose proof (fire_frame onstart id w) as Hf.
    destruct Hf as (_ & _ & _ & _ & _ & _ & ->). exact Hb.
  - cbn [Speech.step]. pose proof (fire_frame onend id w) as Hf.
    destruct Hf as (_ & _ & _ & _ & _ & _ & ->). exact Hb.
  - cbn [Speech.step]. destruct (onvoiceschanged w) as [[]|]; [|exact Hb].
    cbn. pose proof (chooseVoice_frame w) as Hf.
    destruct Hf as (_ & _ & _ & _ & _ & _ & ->). exact Hb.
  - exact Hb.
  - cbn [Speech.step]. destruct (Timers.tick (timers w)) as [cbs ts].
    pose proof (callbacks_frame cbs (with_timers ts w)) as Hf.
    cbv zeta in Hf. destruct Hf as (_ & _ & _ & _ & _ & _ & ->). exact Hb.
Qed.

Lemma step_raise (ev : event E) (w : World E) :
  Forall built (utterances w) →
  isSpeaking w = false → isSpeaking (step ev w) = true →
  ∃ id, ev = UtteranceStart id.
Proof.
  intros Hb Hlow Hhigh. destruct ev; try (eexists; reflexivity); exfalso.
  - cbn in Hhigh. destruct (stage w); [|congruence..].
    destruct (effect_frame (with_stage Mounted w)) as (Hi & _).
    rewrite Hi in Hhigh. cbn in Hhigh. congruence.
  - cbn in Hhigh. destruct (stage w); [congruence| |congruence].
    destruct (cleanup w) as [id|]; [|cbn in Hhigh; congruence].
    cbn in Hhigh. destruct (run_cleanup_frame id w) as (Hi & _). congruence.
  - cbn [Speech.step] in Hhigh.
    pose proof (speak_call_frame t w) as (_ & (Hi & _) & _). congruence.
  - cbn [Speech.step] in Hhigh. unfold fire in Hhigh.
    destruct (utterances w !! id) as [u|] eqn:Hu; [|congruence].
    assert (Hbu : built u).
    { rewrite Forall_forall in Hb. apply Hb.
      apply list_elem_of_lookup. exists id. exact Hu. }
    destruct Hbu as (t & v & ->). cbn in Hhigh.
    apply setIsSpeaking_false in Hhigh. congruence.
  - cbn [Speech.step] in Hhigh.
    destruct (onvoiceschanged w) as [[]|]; [|congruence].
    cbn in Hhigh. pose proof (chooseVoice_frame w) as (Hi & _). congruence.
  - cbn in Hhigh. congruence.
  - cbn [Speech.step] in Hhigh. destruct (Timers.tick (timers w)) as [cbs ts].
    apply callbacks_not_raise in Hhigh. cbn in Hhigh. congruence.
Qed.

(** *** Who can clear the signal *)

Lemma callbacks_clear (cbs : list callback) (w : World E) :
  isSpeaking w = true →
  isSpeaking (foldl (fun w c => run_callback engine c w) w cbs) = false →
  ∃ e, synth w = Some e ∧ speaking engine e = false.
Proof.
  revert w. induction cbs as [|[] cbs IH]; intros w Hhigh Hlow; cbn in Hlow;
    [congruence|].
  destruct (synth w) as [e|] eqn:Hs.
  - destruct (speaking engine e) eqn:He; [|eauto].
    assert (Hp : poll engine w = w) by (unfold poll; rewrite Hs, He; reflexivity).
    rewrite Hp in Hlow. destruct (IH w Hhigh Hlow) as (e' & He' & Hidle).
    exists e'. split; congruence.
  - assert (Hp : poll engine w = w) by (unfold poll; rewrite Hs; reflexivity).
    rewrite Hp in Hlow. destruct (IH w Hhigh Hlow) as (e' & He' & _).
    congruence.
Qed.

(** In a state whose utterances are the ones [speak] builds, an event
    that clears the signal is the end event of an utterance of the store,
    or a millisecond at which the poll finds the engine idle. *)
Lemma step_clear (ev : event E) (w : World E) :
  Forall built (utterances w) →
  isSpeaking w = true → isSpeaking (step ev w) = false →
  (∃ id, ev = UtteranceEnd id ∧ (id < length (utterances w))%nat)
  ∨ (ev = Millisecond ∧ ∃ e, synth w = Some e ∧ speaking engine e = false).
Proof.
  intros Hb Hhigh Hlow. destruct ev.
  - exfalso. cbn in Hlow. destruct (stage w); [|congruence..].
    destruct (effect_frame (with_stage Mounted w)) as (Hi & _).
    rewrite Hi in Hlow. cbn in Hlow. congruence.
  - exfalso. cbn in Hlow. destruct (stage w); [congruence| |congruence].
    destruct (cleanup w) as [id|]; [|cbn in Hlow; congruence].
    cbn in Hlow. destruct (run_cleanup_frame id w) as (Hi & _). congruence.
  - exfalso. cbn [Speech.step] in Hlow.
    pose proof (speak_call_frame t w) as (_ & (Hi & _) & _). congruence.
  - exfalso. cbn [Speech.step] in Hlow. unfold fire in Hlow.
    destruct (utterances w !! id) as [u|] eqn:Hu; [|congruence].
    assert (Hbu : built u).
    { rewrite Forall_forall in Hb. apply Hb.
      apply list_elem_of_lookup. exists id. exact Hu. }
    destruct Hbu as (t & v & ->). cbn in Hlow.
    unfold setIsSpeaking in Hlow. destruct (stage w); cbn in Hlow; congruence.
  - left. exists id. split; [reflexivity|].
    cbn [Speech.step] in Hlow. unfold fire in Hlow.
    destruct (utterances w !! id) as [u|] eqn:Hu; [|congruence].
    apply lookup_lt_Some in Hu. exact Hu.
  - exfalso. cbn [Speech.step] in Hlow.
    destruct (onvoiceschanged w) as [[]|]; [|congruence].
    cbn in Hlow. pose proof (chooseVoice_frame w) as (Hi & _). congruence.
  - exfalso. cbn in Hlow. congruence.
  - right. split; [reflexivity|].
    cbn [Speech.step] in Hlow. destruct (Timers.tick (timers w)) as [cbs ts].
    apply callbacks_clear in Hlow; [exact Hlow | exact Hhigh].
Qed.

(** The handlers of an utterance that [speak] built. *)
Lemma end_event_clears (id : nat) (u : Utterance) (w : World E) :
  utterances w !! id = Some u → built u → stage w = Mounted →
  isSpeaking (step (UtteranceEnd id) w) = false.
Proof.
  intros Hu (t & v & ->) Hst. cbn [Speech.step]. unfold fire. rewrite Hu.
  cbn. unfold setIsSpeaking. rewrite Hst. reflexivity.
Qed.

Lemma start_event_sets (id : nat) (u : Utterance) (w : World E) :
  utterances w !! id = Some u → built u → stage w = Mounted →
  isSpeaking (step (UtteranceStart id) w) = true.
Proof.
  intros Hu (t & v & ->) Hst. cbn [Speech.step]. unfold fire. rewrite Hu.
  cbn. unfold setIsSpeaking. rewrite Hst. reflexivity.
Qed.

Lemma built_run (evs : list (event E)) (e : option E) :
  Forall built (utterances (run evs (initial e))).
Proof.
  apply (run_invariant (fun w => Forall built (utterances w))).
  - intros ev w. apply built_step.
  - constructor.
Qed.

(** C5: [speak] never throws: whatever the text, the state of the
    controller and the behaviour of the engine, the call completes
    normally.  A failure inside it (no engine, [cancel] or [speak] of the
    engine throwing, no utterance constructor) is caught; the call then
    leaves the state of the controller as it was, so a signal that was false
    remains false; without an engine the call does nothing at all. *)
Theorem speak_never_throws (t : string) (w : World E) :
  fst (speak_call t w) = Normal tt
  ∧ same_controller w (snd (speak_call t w))
  ∧ (isSpeaking w = false → isSpeaking (snd (speak_call t w)) = false)
  ∧ (synth w = None → snd (speak_call t w) = w)
  ∧ (fst (speak_body t w) = Throw →
       snd (speak_call t w) = snd (speak_body t w)
       ∧ isSpeaking (snd (speak_call t w)) = isSpeaking w).
Proof.
  pose proof (speak_call_frame t w) as (Hn & Hf & _).
  split; [exact Hn|]. split; [exact Hf|]. split; [|split].
  - destruct Hf as (Hi & _). congruence.
  - intros Hs. rewrite (speak_call_absent t w Hs). reflexivity.
  - intros Hthrow. split; [|apply Hf].
    unfold Speech.speak_call, try_catch.
    destruct (Speech.speak_body engine has_Utterance t w) as [[[]|] w'];
      [discriminate Hthrow | reflexivity].
Qed.

(** C7: when the controller is disposed of, the cleanup clears the timer
    of the poll and detaches the listener of the voice-list change: no
    timer is pending and the engine has no listener, and whatever happens
    afterwards (time passing, [voiceschanged], events of utterances) leaves
    the signal and the preferred voice as they were.  Until then, on a host
    with an engine, the poll and the listener are in place. *)
Theorem dispose_detaches (e : option E) (evs1 evs2 : list (event E)) :
  (e ≠ None → Unmount ∉ evs1 → polling (run (Mount :: evs1) (initial e)))
  ∧ disposed (run (Mount :: evs1 ++ [Unmount]) (initial e))
  ∧ disposed (run evs2 (run (Mount :: evs1 ++ [Unmount]) (initial e)))
  ∧ isSpeaking (run evs2 (run (Mount :: evs1 ++ [Unmount]) (initial e)))
    = isSpeaking (run (Mount :: evs1 ++ [Unmount]) (initial e))
  ∧ preferredVoiceRef (run evs2 (run (Mount :: evs1 ++ [Unmount]) (initial e)))
    = preferredVoiceRef (run (Mount :: evs1 ++ [Unmount]) (initial e)).
Proof.
  assert (Hd : disposed (run (Mount :: evs1 ++ [Unmount]) (initial e))).
  { change (run (Mount :: evs1 ++ [Unmount]) (initial e))
      with (run (evs1 ++ [Unmount]) (step Mount (initial e))).
    rewrite run_app. apply alive_unmount.
    apply (run_invariant alive); [apply alive_step | apply mount_alive]. }
  split; [|split; [exact Hd | apply disposed_run, Hd]].
  intros He Hno. destruct e as [e|]; [|congruence].
  apply (polling_run evs1 _ Hno), mount_polling.
Qed.

(** C6: the effect registers the poll with [setInterval] at a period of
    200 milliseconds; the timer fires when its time has come and is armed
    again 200 milliseconds later.  The poll sets the signal to false
    whenever the engine reports that it is not speaking, and never sets it
    to true: in every state the controller can reach, an event that
    raises the signal is the start event of an utterance. *)
Theorem poll_backstop (e0 : E) (evs : list (event E)) (ev : event E)
  (w : World E) (id : nat) (d : Z) :
  poll_period = 200
  ∧ Timers.pending (timers (step Mount (initial (Some e0)))) = [poll_timer 1 200]
  ∧ (Timers.pending (timers w) = [poll_timer id d] →
       step Millisecond w =
       if d <=? Timers.clock (timers w) + 1
       then poll engine
              (with_timers
                 {| Timers.clock := Timers.clock (timers w) + 1;
                    Timers.next_id := Timers.next_id (timers w);
                    Timers.pending := [poll_timer id (d + 200)] |} w)
       else with_timers
              {| Timers.clock := Timers.clock (timers w) + 1;
                 Timers.next_id := Timers.next_id (timers w);
                 Timers.pending := [poll_timer id d] |} w)
  ∧ (∀ e, synth w = Some e → speaking engine e = false → stage w ≠ Disposed →
       isSpeaking (poll engine w) = false)
  ∧ (isSpeaking (poll engine w) = true → isSpeaking w = true)
  ∧ (isSpeaking (run evs (initial (Some e0))) = false →
       isSpeaking (step ev (run evs (initial (Some e0)))) = true →
       ∃ i, ev = UtteranceStart i).
Proof.
  split; [reflexivity|]. split; [reflexivity|].
  split; [apply millisecond_polling|].
  split; [intros e; apply poll_idle|].
  split; [apply poll_not_raise|].
  apply step_raise, built_run.
Qed.

(** The listener re-evaluates the preferred voice from the list the
    engine has at that moment; the utterances and the engine are left
    alone. *)
Lemma voices_changed_reselects (w : World E) (e : E) :
  onvoiceschanged w = Some ChooseVoice → synth w = Some e →
  preferredVoiceRef (step VoicesChanged w)
  = chooseVoice (default [] (getVoices engine e))
  ∧ utterances (step VoicesChanged w) = utterances w
  ∧ synth (step VoicesChanged w) = synth w
  ∧ isSpeaking (step VoicesChanged w) = isSpeaking w.
Proof.
  intros Hl Hs. cbn. rewrite Hl. cbn. unfold run_chooseVoice. rewrite Hs.
  repeat split. cbn. congruence.
Qed.

(** C1 (amended): on a mounted controller whose engine and utterance
    constructor exist and whose engine returns from [cancel] and [speak],
    [speak(t)] asks the engine to cancel and then hands it the new
    utterance, in that order, and does not write the signal itself: the
    signal a superseded utterance left is the same after the call.  The new
    utterance carries one start handler and one end handler: its start
    event sets the signal and its end event clears it, started or not.
    The signal of a superseded utterance is cleared by the end event of
    that utterance and by the poll when it finds the engine idle.  After
    the call, whatever happens, an event that clears the signal is the end
    event of an utterance of the store (the new one, the superseded one or
    an earlier one), or a millisecond at which the poll finds the engine
    idle.  At most one utterance is active after the call on an engine
    whose [cancel] leaves none active and whose [speak] adds at most
    one. *)
Theorem speak_supersedes (t : string) (w : World E) (e e1 e2 : E)
  (Hmounted : stage w = Mounted)
  (Hengine : synth w = Some e)
  (Hctor : has_Utterance = true)
  (Hcancel : cancel engine e = (Normal tt, e1))
  (Hspeak : speak engine (built_utterance t (preferredVoiceRef w)) e1
            = (Normal tt, e2)) :
  synth (step (Speak t) w) = Some e2
  ∧ utterances (step (Speak t) w)
    = utterances w ++ [built_utterance t (preferredVoiceRef w)]
  ∧ isSpeaking (step (Speak t) w) = isSpeaking w
  ∧ isSpeaking (step (UtteranceStart (length (utterances w)))
                  (step (Speak t) w)) = true
  ∧ isSpeaking (step (UtteranceEnd (length (utterances w)))
                  (step (UtteranceStart (length (utterances w)))
                     (step (Speak t) w))) = false
  ∧ (∀ id u, utterances w !! id = Some u → built u →
       isSpeaking (step (UtteranceEnd id) (step (Speak t) w)) = false)
  ∧ (speaking engine e2 = false →
       isSpeaking (poll engine (step (Speak t) w)) = false)
  ∧ isSpeaking (step (UtteranceEnd (length (utterances w)))
                  (step (Speak t) w)) = false
  ∧ (Forall built (utterances w) →
     ∀ (evs : list (event E)) (ev : event E),
       isSpeaking (run evs (step (Speak t) w)) = true →
       isSpeaking (step ev (run evs (step (Speak t) w))) = false →
       (∃ id, ev = UtteranceEnd id
              ∧ (id < length (utterances (run evs (step (Speak t) w))))%nat)
       ∨ (ev = Millisecond
          ∧ ∃ e', synth (run evs (step (Speak t) w)) = Some e'
                  ∧ speaking engine e' = false))
  ∧ (∀ active : E → nat,
       (∀ x x', cancel engine x = (Normal tt, x') → active x' = 0%nat) →
       (∀ u x c x', speak engine u x = (c, x') →
                    (active x' <= S (active x))%nat) →
       (active e2 <= 1)%nat).
Proof.
  set (u := built_utterance t (preferredVoiceRef w)) in *.
  assert (Hstep : step (Speak t) w
                  = with_synth (Some e2)
                      (with_utterances (utterances w ++ [u]) w)).
  { cbn [Speech.step]. rewrite (speak_call_run t w e Hengine), Hcancel, Hctor.
    cbv zeta. fold u. rewrite Hspeak. reflexivity. }
  assert (Hlast : (utterances w ++ [u]) !! length (utterances w) = Some u).
  { rewrite lookup_app_r by reflexivity. rewrite Nat.sub_diag. reflexivity. }
  assert (Hu : built u) by (eexists _, _; reflexivity).
  split; [rewrite Hstep; reflexivity|].
  split; [rewrite Hstep; reflexivity|].
  split; [rewrite Hstep; reflexivity|].
  split; [|split; [|split; [|split; [|split; [|split]]]]].
  - apply (start_event_sets _ u); [|exact Hu|].
    + rewrite Hstep. exact Hlast.
    + rewrite Hstep. exact Hmounted.
  - pose proof (fire_frame onstart (length (utterances w)) (step (Speak t) w))
      as (_ & _ & _ & Hst & _ & _ & Hus).
    change (fire onstart (length (utterances w)) (step (Speak t) w))
      with (step (UtteranceStart (length (utterances w))) (step (Speak t) w))
      in Hst, Hus.
    apply (end_event_clears _ u); [|exact Hu|].
    + rewrite Hus, Hstep. exact Hlast.
    + rewrite Hst, Hstep. exact Hmounted.
  - intros id v Hv Hbv. apply (end_event_clears id v); [|exact Hbv|].
    + rewrite Hstep. cbn. apply lookup_app_l_Some, Hv.
    + rewrite Hstep. exact Hmounted.
  - intros Hidle. apply (poll_idle _ e2); [rewrite Hstep; reflexivity | exact Hidle|].
    rewrite Hstep. cbn. congruence.
  - apply (end_event_clears _ u); [|exact Hu|].
    + rewrite Hstep. exact Hlast.
    + rewrite Hstep. exact Hmounted.
  - intros Hb evs ev. apply step_clear.
    apply (run_invariant (fun x => Forall built (utterances x)));
      [intros ev' x; apply built_step | apply built_step, Hb].
  - intros active Hc Hs.
    pose proof (Hc e e1 Hcancel) as H0.
    pose proof (Hs _ _ _ _ Hspeak) as H1. lia.
Qed.

End ControllerFacts.

(** ** The controller on the two engines *)

(** C1, as the specification states it, fails: after [speak("cat")], the
    start of that utterance and [speak("dog")], the signal is still true
    although the utterance of "dog" has not started.  With an engine that
    ignores [cancel()] both utterances are in its queue and the signal
    stays true through the polls that follow; with an engine that honours
    [cancel()] the signal is true as well when [speak("dog")] returns. *)
Lemma superseded_still_speaking :
  isSpeaking (run (queue_engine false) true cat_then_dog (initial (Some silent)))
  = true
  ∧ queued_texts (run (queue_engine false) true cat_then_dog (initial (Some silent)))
    = ["cat"; "dog"]%string
  ∧ isSpeaking (run (queue_engine false) true
                  (cat_then_dog ++ repeat Millisecond 1000)
                  (initial (Some silent))) = true
  ∧ isSpeaking (run (queue_engine true) true cat_then_dog (initial (Some silent)))
    = true.
Proof. vm_compute. repeat split. Qed.

Lemma speak_supersedes_witness :
  isSpeaking (step (queue_engine true) true (Speak "dog")
                (run (queue_engine true) true
                   [Mount; Speak "cat"; UtteranceStart 0]
                   (initial (Some silent)))) = true
  ∧ isSpeaking
      (step (queue_engine true) true (UtteranceEnd 0)
         (step (queue_engine true) true (Speak "dog")
            (run (queue_engine true) true
               [Mount; Speak "cat"; UtteranceStart 0]
               (initial (Some silent))))) = false
  ∧ isSpeaking
      (step (queue_engine true) true (UtteranceEnd 1)
         (step (queue_engine true) true (Speak "dog")
            (run (queue_engine true) true
               [Mount; Speak "cat"; UtteranceStart 0]
               (initial (Some silent))))) = false.
Proof.
  destruct (speak_supersedes (queue_engine true) true "dog"
              (run (queue_engine true) true
                 [Mount; Speak "cat"; UtteranceStart 0] (initial (Some silent)))
              {| voices := []; queue := [built_utterance "cat" None] |}
              silent
              {| voices := []; queue := [built_utterance "dog" None] |})
    as (_ & _ & Hsame & _ & _ & Hend & _ & Hown & _);
    [reflexivity | reflexivity | reflexivity | reflexivity | reflexivity |].
  split; [|split].
  - rewrite Hsame. reflexivity.
  - apply (Hend 0%nat (built_utterance "cat" None)); [reflexivity|].
    exists "cat"%string, None. reflexivity.
  - exact Hown.
Defined.

(** [speak] on an engine whose [speak] throws: the call returns, the
    signal stays false and no start event was asked for. *)
Lemma speak_on_failing_engine :
  speak_call failing_engine true "cat"
    (step failing_engine true Mount (initial (Some silent)))
  = (Normal tt,
     with_utterances [built_utterance "cat" None]
       (step failing_engine true Mount (initial (Some silent)))).
Proof. vm_compute. reflexivity. Qed.

(** ** The choice of the voice *)

(** The precedence of [chooseVoice], with the tests as the code has them. *)
Lemma chooseVoice_precedence (all : list Voice) :
  chooseVoice all =
  match List.find is_exact all with
  | Some v => Some v
  | None =>
      match List.find is_fallback all with
      | Some v => Some v
      | None => head all
      end
  end.
Proof.
  unfold chooseVoice, or_object.
  destruct (List.find is_exact all); [reflexivity|].
  destruct (List.find is_fallback all); [reflexivity|].
  destruct all; reflexivity.
Qed.

Lemma chooseVoice_examples :
  chooseVoice [] = None
  ∧ chooseVoice [thomas] = Some thomas
  ∧ chooseVoice [thomas; daniel] = Some daniel
  ∧ chooseVoice [thomas; karen; daniel] = Some karen
  ∧ chooseVoice [thomas; daniel; google] = Some google.
Proof. vm_compute. repeat split. Qed.

(** C4: the second test of [chooseVoice], [/en(-| )US|GB|AU/i], accepts
    every locale that contains "GB" or "AU": among a French voice and a
    Welsh voice of the locale cy-GB, neither of them English, the code
    takes the Welsh voice as its English fallback, where the precedence of
    the claim gives the first voice of the list. *)
Theorem chooseVoice_region_as_english :
  is_exact gwyneth = false
  ∧ is_fallback thomas = false
  ∧ is_fallback gwyneth = true
  ∧ chooseVoice [thomas; gwyneth] = Some gwyneth
  ∧ chooseVoice [thomas; gwyneth] ≠ head [thomas; gwyneth].
Proof.
  vm_compute. repeat split. discriminate.
Qed.

(** The voice list is empty when "cat" is spoken and holds the Google
    voice afterwards: "dog" is spoken with that voice, the utterance of
    "cat" keeps the voice it had. *)
Lemma voice_resolved_later :
  utterances
    (run (queue_engine true) true
       [Mount; Speak "cat";
        EngineChange (fun e => {| voices := [google]; queue := queue e |});
        VoicesChanged; Speak "dog"]
       (initial (Some silent)))
  = [built_utterance "cat" None; built_utterance "dog" (Some google)].
Proof. vm_compute. reflexivity. Qed.

End SpeechFacts.

(** ** The Category screen *)

Module ScreensFacts.
Import Speech Screens.

Ltac run_M :=
  cbv beta iota zeta delta [mbind M_bind bind mret M_ret ret prop].

Section CategoryFacts.
Variable CATEGORIES : list CategoryData.
Variable localeCompare : string → string → JS.number.

Lemma card_run (c : CategoryData) (x : Item) (h : store) :
  card (Some c) x h = (Normal (make_card (key c) x), h).
Proof. reflexivity. Qed.

Lemma map_M_card (c : CategoryData) (xs : list Item) (h : store) :
  map_M (card (Some c)) xs h = (Normal (make_card (key c) <$> xs), h).
Proof.
  induction xs as [|x xs IH]; [reflexivity|].
  cbn [map_M]. run_M. rewrite card_run, IH. reflexivity.
Qed.

Lemma sorted_items_run (c : CategoryData) (xs : list Item) (h : store) :
  h !! items c = Some xs →
  sorted_items localeCompare (Some c) h =
  (Normal (fresh (dom h)),
   <[fresh (dom h) := JS.sort (comparator localeCompare (key c)) xs]>
     (<[fresh (dom h) := xs]> h)).
Proof.
  intros Hxs. unfold sorted_items, comparator. run_M.
  unfold spread. rewrite Hxs.
  destruct (String.eqb (key c) "numbers").
  - unfold array_sort. rewrite lookup_insert_eq. reflexivity.
  - destruct (String.eqb (key c) "letters");
      unfold array_sort; rewrite lookup_insert_eq; reflexivity.
Qed.

Lemma find_none_key (categoryKey : string) :
  (∀ c, c ∈ CATEGORIES → key c ≠ categoryKey) →
  JS.find (fun c => String.eqb (key c) categoryKey) CATEGORIES = None.
Proof.
  intros Hno. unfold JS.find.
  destruct (List.find _ CATEGORIES) as [c|] eqn:Hfind; [|reflexivity].
  apply List.find_some in Hfind as [Hin Heq].
  apply String.eqb_eq in Heq. exfalso.
  apply (Hno c); [apply list_elem_of_In; exact Hin | exact Heq].
Qed.

Lemma in_order_sorted (k : string) (xs : list Item) :
  JS.consistent (fun _ => True) localeCompare →
  (k = "numbers"%string → Forall (fun x => JS.Number (slug x) ≠ JS.NaN) xs) →
  StronglySorted (in_order localeCompare k) (JS.sort (comparator localeCompare k) xs).
Proof.
  intros [Htot Htrans] Hnum. unfold in_order, comparator.
  destruct (String.eqb_spec k "numbers") as [Hk|_].
  - specialize (Hnum Hk).
    pose proof (JSFacts.sort_sorted _ _ (JSFacts.consistent_sub (fun x => JS.Number (slug x)))
                  xs Hnum) as Hs.
    assert (Hall : Forall (fun x => JS.Number (slug x) ≠ JS.NaN)
                     (JS.sort by_number xs)).
    { rewrite (JSFacts.sort_perm by_number xs). exact Hnum. }
    revert Hs Hall. unfold by_number.
    generalize (JS.sort (fun a b => JS.sub (JS.Number (slug a)) (JS.Number (slug b))) xs).
    intros l Hs. induction Hs as [|y l Hs IH Hy]; intros Hall; constructor.
    + apply IH. apply Forall_cons in Hall as [_ Hall]. exact Hall.
    + apply Forall_cons in Hall as [Py Pl].
      rewrite Forall_forall in *. intros z Hz.
      apply (JSFacts.precedes_sub (fun x => JS.Number (slug x)));
        [exact Py | apply Pl, Hz | apply Hy, Hz].
  - assert (Hany : ∀ l : list Item, Forall (fun _ => True) l)
      by (intros l; apply Forall_forall; intros; exact I).
    destruct (String.eqb k "letters").
    + apply (JSFacts.sort_sorted (fun _ => True)); [|apply Hany].
      split; intros; [apply Htot | eapply Htrans]; eauto.
    + apply (JSFacts.sort_sorted (fun _ => True)); [|apply Hany].
      split; intros; [apply Htot | eapply Htrans]; eauto.
Qed.

End CategoryFacts.

Lemma SortCompare_ordinal (s t : string) :
  JS.SortCompare ordinal_compare s t = String.compare s t.
Proof.
  unfold JS.SortCompare, ordinal_compare.
  destruct (String.compare s t); reflexivity.
Qed.

Lemma ordinal_compare_consistent : JS.consistent (fun _ => True) ordinal_compare.
Proof.
  split.
  - intros s t _ _. unfold JS.precedes. rewrite !SortCompare_ordinal.
    rewrite (String.compare_antisym t s). intros ->. discriminate.
  - intros s t u _ _ _. unfold JS.precedes. rewrite !SortCompare_ordinal.
    intros Hst Htu.
    destruct (String.compare s t) eqn:Est; [| |congruence].
    + apply String.compare_eq_iff in Est. subst. exact Htu.
    + destruct (String.compare t u) eqn:Etu; [| |congruence].
      * apply String.compare_eq_iff in Etu. subst. rewrite Est. discriminate.
      * assert (Hlt : String.compare s u = Lt).
        { apply OrderedTypeEx.String_as_OT.cmp_lt.
          eapply OrderedTypeEx.String_as_OT.lt_trans;
            apply OrderedTypeEx.String_as_OT.cmp_lt; eassumption. }
        rewrite Hlt. discriminate.
Qed.

Section CategoryTheorems.
Variable CATEGORIES : list CategoryData.
Variable localeCompare : string → string → JS.number.

(** C10: for a key that no category of the catalog has, the Category
    screen returns [null]; it completes normally, so no property of the
    missing category was read, and it leaves the store as it was. *)
Theorem Category_unknown_key (categoryKey : string) (isSpeaking : bool) (h : store)
  (Hunknown : ∀ c, c ∈ CATEGORIES → key c ≠ categoryKey) :
  Category CATEGORIES localeCompare categoryKey isSpeaking h = (Normal None, h).
Proof.
  unfold Category. rewrite (find_none_key CATEGORIES categoryKey Hunknown).
  reflexivity.
Qed.


End CategoryTheorems.

Lemma Category_unknown_key_witness :
  (∀ c, c ∈ sample_catalog → key c ≠ "bogus"%string)
  ∧ Category sample_catalog ordinal_compare "bogus" false sample_store
    = (Normal None, sample_store).
Proof.
  assert (Hunknown : ∀ c, c ∈ sample_catalog → key c ≠ "bogus"%string).
  { intros c Hc.
    repeat (apply elem_of_cons in Hc as [->|Hc]; [discriminate|]).
    inversion Hc. }
  split; [exact Hunknown|].
  apply (Category_unknown_key sample_catalog ordinal_compare "bogus" false
           sample_store Hunknown).
Defined.

Lemma sample_numbers_sorted :
  slug <$> JS.sort (comparator ordinal_compare "numbers") sample_numbers
  = ["2"; "9"; "10"]%string.
Proof. vm_compute. reflexivity. Qed.



End ScreensFacts.

(** ** Navigation *)

Module NavigationFacts.
Import Navigation.

Lemma start_initial : step Start initial = waiting 0.
Proof. reflexivity. Qed.

Lemma tick_no_timers (c : Z) (i : nat) :
  Timers.tick (C := callback)
    {| Timers.clock := c; Timers.next_id := i; Timers.pending := [] |} =
  ([], {| Timers.clock := c + 1; Timers.next_id := i; Timers.pending := [] |}).
Proof. reflexivity. Qed.

Lemma waiting_millisecond (n : Z) :
  step Millisecond (waiting n) =
  if splash_delay <=? n + 1
  then {| showSplash := false; screen := "home";
          timers := {| Timers.clock := n + 1; Timers.next_id := 2;
                       Timers.pending := [] |};
          splash_cleanup := None; unmounted := false; done_calls := 1 |}
  else waiting (n + 1).
Proof.
  unfold step, waiting, Timers.tick. cbn.
  unfold Timers.rearm, Timers.is_due. cbn.
  destruct (splash_delay <=? n + 1) eqn:Hdue.
  - rewrite decide_True by reflexivity. reflexivity.
  - rewrite decide_False by discriminate. reflexivity.
Qed.

Lemma waiting_user_input (n : Z) (ev : event) :
  ev ≠ Millisecond → ev ≠ Teardown → step ev (waiting n) = waiting n.
Proof. destruct ev; intros; try congruence; reflexivity. Qed.

Lemma waiting_teardown (n : Z) : cancelled (step Teardown (waiting n)).
Proof. repeat split. Qed.

Lemma finished_step (ev : event) (a : App) : finished a → finished (step ev a).
Proof.
  destruct a as [sp sc [c i p] cl un dn].
  intros (Hs & Hp & Hc & Hd). cbn in *. subst.
  destruct ev; cbn.
  - destruct un; repeat split.
  - repeat split.
  - unfold state, setScreen; cbn. destruct (String.eqb sc "home"), un; repeat split.
  - unfold state, setScreen; cbn. destruct (String.eqb sc "home"), un; repeat split.
  - destruct un; repeat split.
Qed.

Lemma cancelled_step (ev : event) (a : App) : cancelled a → cancelled (step ev a).
Proof.
  destruct a as [sp sc [c i p] cl un dn].
  intros (Hs & Hp & Hc & Hu & Hd). cbn in *. subst.
  destruct ev; cbn; repeat split.
Qed.

Lemma finished_run (evs : list event) (a : App) : finished a → finished (run evs a).
Proof.
  revert a. induction evs as [|ev evs IH]; intros a Ha; [exact Ha|].
  apply IH, finished_step, Ha.
Qed.

Lemma cancelled_run (evs : list event) (a : App) : cancelled a → cancelled (run evs a).
Proof.
  revert a. induction evs as [|ev evs IH]; intros a Ha; [exact Ha|].
  apply IH, cancelled_step, Ha.
Qed.

Lemma elapsed_nonneg (evs : list event) : 0 <= elapsed evs.
Proof. induction evs as [|[] evs IH]; cbn [elapsed]; lia. Qed.

Lemma elapsed_app (evs1 evs2 : list event) :
  elapsed (evs1 ++ evs2) = elapsed evs1 + elapsed evs2.
Proof. induction evs1 as [|[] evs1 IH]; cbn [elapsed app]; lia. Qed.

(** While the splash waits, only the clock counts. *)
Lemma waiting_run (evs : list event) (n : Z) :
  Teardown ∉ evs →
  (n + elapsed evs < splash_delay → run evs (waiting n) = waiting (n + elapsed evs))
  ∧ (splash_delay <= n + elapsed evs → n < splash_delay → finished (run evs (waiting n))).
Proof.
  revert n. induction evs as [|ev evs IH]; intros n Hno.
  - cbn. split; [intros _; f_equal; lia | lia].
  - assert (Hev : ev ≠ Teardown) by (intros ->; apply Hno; left).
    assert (Hevs : Teardown ∉ evs) by (intros H; apply Hno; right; exact H).
    pose proof (elapsed_nonneg evs) as Hpos.
    destruct (decide (ev = Millisecond)) as [->|Hms].
    + change (run (Millisecond :: evs) (waiting n))
        with (run evs (step Millisecond (waiting n))).
      rewrite waiting_millisecond. cbn [elapsed].
      destruct (Z.leb_spec splash_delay (n + 1)) as [Hle|Hlt].
      * split; [lia|]. intros _ _. apply finished_run. repeat split.
      * destruct (IH (n + 1) Hevs) as [IH1 IH2]. split.
        -- intros H. rewrite IH1 by lia. f_equal. lia.
        -- intros H _. apply IH2; lia.
    + change (run (ev :: evs) (waiting n)) with (run evs (step ev (waiting n))).
      rewrite waiting_user_input by assumption.
      assert (elapsed (ev :: evs) = elapsed evs) as ->
        by (destruct ev; [reflexivity | contradiction | reflexivity ..]).
      apply IH, Hevs.
Qed.

(** C8: the transition out of the splash fires by itself, once, when
    2200 milliseconds have passed since the effect of [Splash] ran. Before
    that no user input leaves or cancels the splash; afterwards [onDone]
    has been called exactly once, whatever follows.  When the root is
    torn down before the delay has passed, the timer is cleared and the
    transition never fires. *)
Theorem splash_transition (evs evs' : list event) (Hno : Teardown ∉ evs) :
  splash_delay = 2200
  ∧ state (run (Start :: repeat Millisecond 2200) initial) = Home
  ∧ (elapsed evs < splash_delay →
       state (run (Start :: evs) initial) = Splash
       ∧ done_calls (run (Start :: evs) initial) = 0%nat)
  ∧ (splash_delay <= elapsed evs →
       showSplash (run (Start :: evs) initial) = false
       ∧ done_calls (run (Start :: evs) initial) = 1%nat
       ∧ done_calls (run (Start :: evs ++ evs') initial) = 1%nat
       ∧ Timers.pending (timers (run (Start :: evs ++ evs') initial)) = [])
  ∧ (elapsed evs < splash_delay →
       state (run (Start :: evs ++ Teardown :: evs') initial) = Splash
       ∧ done_calls (run (Start :: evs ++ Teardown :: evs') initial) = 0%nat
       ∧ Timers.pending (timers (run (Start :: evs ++ Teardown :: evs') initial)) = []).
Proof.
  assert (Hrun : ∀ l, run (Start :: l) initial = run l (waiting 0)) by reflexivity.
  assert (Happ : ∀ l1 l2 a, run (l1 ++ l2) a = run l2 (run l1 a))
    by (intros; apply foldl_app).
  destruct (waiting_run evs 0 Hno) as [Hwait Hfin].
  split; [reflexivity|]. split; [vm_compute; reflexivity|].
  rewrite !Hrun, !Happ. repeat split.
  - rewrite Hwait by lia. reflexivity.
  - rewrite Hwait by lia. reflexivity.
  - apply Hfin; [lia | reflexivity].
  - apply Hfin; [lia | reflexivity].
  - apply (finished_run evs'), Hfin; [lia | reflexivity].
  - apply (finished_run evs'), Hfin; [lia | reflexivity].
  - rewrite Hwait by lia.
    pose proof (cancelled_run evs' _ (waiting_teardown (0 + elapsed evs))) as (Hs & _).
    unfold state. change (run (Teardown :: evs') ?a) with (run evs' (step Teardown a)).
    rewrite Hs. reflexivity.
  - rewrite Hwait by lia.
    apply (cancelled_run evs' _ (waiting_teardown (0 + elapsed evs))).
  - rewrite Hwait by lia.
    apply (cancelled_run evs' _ (waiting_teardown (0 + elapsed evs))).
Qed.

Lemma splash_transition_witness :
  (Teardown ∉ [OpenCategory "colors"; Millisecond; Back])
  ∧ state (run (Start :: [OpenCategory "colors"; Millisecond; Back]) initial) = Splash
  ∧ done_calls
      (run (Start :: [OpenCategory "colors"; Millisecond; Back]
              ++ Teardown :: repeat Millisecond 3000) initial) = 0%nat.
Proof.
  assert (Hno : Teardown ∉ [OpenCategory "colors"; Millisecond; Back]).
  { intros H. repeat (apply elem_of_cons in H as [H|H]; [discriminate H|]).
    inversion H. }
  split; [exact Hno|].
  destruct (splash_transition [OpenCategory "colors"; Millisecond; Back]
              (repeat Millisecond 3000) Hno) as (_ & _ & Hbefore & _ & Htorn).
  split.
  - apply Hbefore. reflexivity.
  - apply Htorn. reflexivity.
Defined.

(** C3, as the specification states it, fails: from [Home], a key that is
    not in the catalog is not rejected; the screen becomes that key. *)
Lemma invalid_key_leaves_home :
  state home_reached = Home
  ∧ ("bogus"%string ∉ Screens.Home_keys Screens.one_category)
  ∧ state (step (OpenCategory "bogus") home_reached) = Category "bogus"
  ∧ state (step (OpenCategory "bogus") home_reached) ≠ Home.
Proof.
  split; [vm_compute; reflexivity|]. split.
  - intros H. apply elem_of_cons in H as [H|H]; [discriminate H | inversion H].
  - split; [vm_compute; reflexivity|]. vm_compute. discriminate.
Qed.

(** C3 (amended): from [Home], the selection of a key is never rejected:
    [onOpenCategory(key)] stores the key as the screen whether or not the
    catalog has it, and the state becomes [Category key] (for the literal
    key "home" the screen keeps its value and the state stays [Home]). *)
Theorem open_category_unconditional (key : string) (a : App)
  (Hhome : state a = Home) (Hlive : unmounted a = false) :
  screen (step (OpenCategory key) a) = key
  ∧ state (step (OpenCategory key) a) =
    if String.eqb key "home" then Home else Category key.
Proof.
  cbn [step]. rewrite Hhome. unfold setScreen. rewrite Hlive.
  unfold state in *. cbn.
  destruct (showSplash a); [discriminate Hhome|].
  split; reflexivity.
Qed.

Lemma open_category_unconditional_witness :
  state home_reached = Home ∧ unmounted home_reached = false
  ∧ state (step (OpenCategory "bogus") home_reached) = Category "bogus".
Proof.
  assert (Hhome : state home_reached = Home) by (vm_compute; reflexivity).
  assert (Hlive : unmounted home_reached = false) by (vm_compute; reflexivity).
  split; [exact Hhome|]. split; [exact Hlive|].
  apply (open_category_unconditional "bogus" _ Hhome Hlive).
Defined.

End NavigationFacts.

(** ** More on the speech controller *)

Module SpeechMoreFacts.
Import Speech SpeechStates.

(** X1: [chooseVoice] leaves the controller without a voice only when the
    engine has none, and never yields a voice that is not in the list. *)
Theorem chooseVoice_member (all : list Voice) :
  (chooseVoice all = None ↔ all = [])
  ∧ (∀ v, chooseVoice all = Some v → v ∈ all).
Proof.
  rewrite SpeechFacts.chooseVoice_precedence.
  destruct (List.find is_exact all) as [v1|] eqn:H1.
  { apply List.find_some in H1 as [Hin _]. split.
    - split; [discriminate | intros ->; destruct Hin].
    - intros v [= <-]. apply list_elem_of_In, Hin. }
  destruct (List.find is_fallback all) as [v2|] eqn:H2.
  { apply List.find_some in H2 as [Hin _]. split.
    - split; [discriminate | intros ->; destruct Hin].
    - intros v [= <-]. apply list_elem_of_In, Hin. }
  destruct all as [|v0 all]; cbn.
  - split; [tauto | discriminate].
  - split; [split; discriminate|]. intros v [= <-]. left.
Qed.

(** X2: The tiers of [chooseVoice] do not depend on the position in the list:
    when some voice passes the first test the choice passes it, and it is
    the first such voice; when none does and some voice passes the second
    test, the choice is the first voice that passes the second. *)
Theorem chooseVoice_tiers (all : list Voice) (v : Voice) (Hin : v ∈ all) :
  (is_exact v = true →
     ∃ v', chooseVoice all = Some v' ∧ is_exact v' = true
           ∧ List.find is_exact all = Some v')
  ∧ ((∀ x, x ∈ all → is_exact x = false) → is_fallback v = true →
     ∃ v', chooseVoice all = Some v' ∧ is_fallback v' = true
           ∧ List.find is_fallback all = Some v').
Proof.
  rewrite SpeechFacts.chooseVoice_precedence. split.
  - intros Hv. destruct (List.find is_exact all) as [v1|] eqn:H1.
    + exists v1. apply List.find_some in H1 as [_ He]. auto.
    + exfalso. apply list_elem_of_In in Hin.
      pose proof (List.find_none _ _ H1 v Hin). congruence.
  - intros Hnone Hv. destruct (List.find is_exact all) as [v1|] eqn:H1.
    + apply List.find_some in H1 as [Hin1 He]. apply list_elem_of_In in Hin1.
      rewrite (Hnone v1 Hin1) in He. discriminate.
    + destruct (List.find is_fallback all) as [v2|] eqn:H2.
      * exists v2. apply List.find_some in H2 as [_ Hf]. auto.
      * exfalso. apply list_elem_of_In in Hin.
        pose proof (List.find_none _ _ H2 v Hin). congruence.
Qed.

Lemma chooseVoice_tiers_witness :
  ∃ v', chooseVoice [thomas; daniel; google] = Some v' ∧ is_exact v' = true
        ∧ List.find is_exact [thomas; daniel; google] = Some v'.
Proof.
  assert (Hin : google ∈ [thomas; daniel; google]).
  { apply list_elem_of_In. right. right. left. reflexivity. }
  destruct (chooseVoice_tiers [thomas; daniel; google] google Hin) as [Hexact _].
  apply Hexact. vm_compute. reflexivity.
Defined.

Section More.
Context {E : Type}.
Variable engine : Engine E.
Variable has_Utterance : bool.

Local Abbreviation step := (Speech.step engine has_Utterance).
Local Abbreviation run := (Speech.run engine has_Utterance).

(** X3: The preferred voice is written by the effect and by the listener of
    the voice-list change only: every other event leaves it as it was. *)
Theorem voice_written_by_listener_only (ev : event E) (w : World E)
  (Hmount : ev ≠ Mount) (Hvoices : ev ≠ VoicesChanged) :
  preferredVoiceRef (step ev w) = preferredVoiceRef w.
Proof.
  destruct ev; try congruence.
  - cbn. destruct (stage w); try reflexivity.
    destruct (cleanup w) as [id|]; [|reflexivity].
    cbn. unfold run_cleanup. cbn. destruct (synth w); reflexivity.
  - cbn [Speech.step].
    pose proof (SpeechFacts.speak_call_frame engine has_Utterance t w)
      as (_ & (_ & Hv & _) & _). exact Hv.
  - apply (SpeechFacts.fire_frame onstart id w).
  - apply (SpeechFacts.fire_frame onend id w).
  - reflexivity.
  - cbn [Speech.step]. destruct (Timers.tick (timers w)) as [cbs ts].
    pose proof (SpeechFacts.callbacks_frame engine cbs (with_timers ts w)) as Hf.
    cbv zeta in Hf. destruct Hf as (Hv & _). exact Hv.
Qed.

(** *** Timers of the controller *)

Lemma rendered_step (ev : event E) (w : World E) :
  ev ≠ Mount → rendered w → rendered (step ev w).
Proof.
  intros Hev (Hst & Hp & Hc & Hl).
  destruct ev; try congruence.
  - cbn. rewrite Hst. repeat split; assumption.
  - pose proof (SpeechFacts.speak_call_frame engine has_Utterance t w)
      as (_ & (_ & _ & Ht & Hl' & Hst' & Hc' & _) & _).
    cbn [Speech.step]. repeat split; congruence.
  - pose proof (SpeechFacts.fire_frame onstart id w)
      as (_ & Ht & Hl' & Hst' & Hc' & _).
    cbn [Speech.step]. repeat split; congruence.
  - pose proof (SpeechFacts.fire_frame onend id w)
      as (_ & Ht & Hl' & Hst' & Hc' & _).
    cbn [Speech.step]. repeat split; congruence.
  - cbn [Speech.step]. rewrite Hl. repeat split; assumption.
  - cbn. repeat split; assumption.
  - rewrite (SpeechFacts.millisecond_no_timers engine has_Utterance w Hp).
    repeat split; assumption.
Qed.

Lemma rendered_mount (w : World E) : rendered w → alive (step Mount w).
Proof.
  intros (Hst & Hp & Hc & Hl). cbn. rewrite Hst. unfold effect. cbn.
  destruct (synth w) as [e|] eqn:Hs.
  - left. unfold polling, run_chooseVoice. cbn. rewrite Hs. cbn. rewrite Hp.
    repeat split; [congruence|].
    eexists _, _. split; reflexivity.
  - right; left. repeat split; assumption.
Qed.

Lemma rendered_or_alive (e : option E) (evs : list (event E)) :
  rendered (run evs (initial e)) ∨ alive (run evs (initial e)).
Proof.
  apply (SpeechFacts.run_invariant engine has_Utterance
           (fun w => rendered w ∨ alive w)).
  - intros ev w [Hw|Hw].
    + destruct ev;
        try (left; apply rendered_step; [discriminate | exact Hw]).
      right. apply rendered_mount, Hw.
    + right. apply SpeechFacts.alive_step, Hw.
  - left. repeat split.
Qed.

(** X4: Whatever happens to the controller, in whatever order, it never has
    more than one timer pending, the timer is the poll with its period
    of 200 milliseconds, and outside the mounted stage it has none. *)
Theorem one_poll_timer (e : option E) (evs : list (event E)) :
  (length (Timers.pending (timers (run evs (initial e)))) <= 1)%nat
  ∧ Forall (fun t => Timers.callback t = Poll ∧ Timers.period t = Some 200)
      (Timers.pending (timers (run evs (initial e))))
  ∧ (stage (run evs (initial e)) ≠ Mounted →
       Timers.pending (timers (run evs (initial e))) = []).
Proof.
  destruct (rendered_or_alive e evs) as [Hr|[Hp|[Hn|Hd]]].
  - destruct Hr as (Hst & Hp & _). rewrite Hp. cbn.
    repeat split; [lia | constructor].
  - destruct Hp as (Hst & _ & _ & id & d & _ & Hp). rewrite Hp. cbn.
    repeat split; [lia | repeat constructor | congruence].
  - destruct Hn as (Hst & _ & _ & Hp & _). rewrite Hp. cbn.
    repeat split; [lia | constructor].
  - destruct Hd as (Hst & Hp & _). rewrite Hp. cbn.
    repeat split; [lia | constructor].
Qed.

(** *** A host without an engine *)

Lemma inert_step (ev : event E) (w : World E) : inert w → inert (step ev w).
Proof.
  intros (Hs & Hi & Hu & Hp & Hv & Hc & Hl).
  destruct ev.
  - cbn. destruct (stage w); try (repeat split; assumption).
    unfold effect. cbn. rewrite Hs. repeat split; assumption.
  - cbn. destruct (stage w); try (repeat split; assumption).
    rewrite Hc. repeat split; assumption.
  - cbn [Speech.step].
    rewrite (SpeechFacts.speak_call_absent engine has_Utterance t w Hs).
    repeat split; assumption.
  - cbn [Speech.step]. unfold fire. rewrite Hu. repeat split; assumption.
  - cbn [Speech.step]. unfold fire. rewrite Hu. repeat split; assumption.
  - cbn [Speech.step]. rewrite Hl. repeat split; assumption.
  - cbn. rewrite Hs. repeat split; assumption.
  - rewrite (SpeechFacts.millisecond_no_timers engine has_Utterance w Hp).
    repeat split; assumption.
Qed.

(** X5: On a host without [speechSynthesis] the controller does nothing at
    all: no timer, no listener, no utterance, and the signal is false
    throughout, whatever is asked of it. *)
Theorem no_engine_inert (evs : list (event E)) :
  inert (run evs (initial None)).
Proof.
  apply (SpeechFacts.run_invariant engine has_Utterance inert).
  - apply inert_step.
  - repeat split.
Qed.

(** *** The prosody of the utterances *)

Lemma built_fixed_prosody (u : Utterance) : built u → fixed_prosody u.
Proof.
  intros (t & v & ->). unfold fixed_prosody. cbn.
  split; [reflexivity|]. vm_compute. repeat split.
Qed.

(** X6: Every utterance the controller has constructed, in any run, has the
    locale en-US, the rate 0.85, the pitch 1.05, the volume 1, and the
    two handlers that set and clear the signal. *)
Theorem utterances_fixed_prosody (e : option E) (evs : list (event E)) :
  Forall fixed_prosody (utterances (run evs (initial e))).
Proof.
  eapply Forall_impl; [apply SpeechFacts.built_run|].
  apply built_fixed_prosody.
Qed.

(** *** The poll as a backstop *)

Lemma armed_step (ev : event E) (w : World E) :
  ev ≠ Unmount → armed w → armed (step ev w).
Proof.
  intros Hev (Hst & id & d & Hp & Hd).
  destruct ev; try congruence.
  - cbn. rewrite Hst. split; eauto.
  - pose proof (SpeechFacts.speak_call_frame engine has_Utterance t w)
      as (_ & (_ & _ & Ht & _ & Hst' & _) & _).
    cbn [Speech.step]. split; [congruence|]. rewrite Ht. eauto.
  - pose proof (SpeechFacts.fire_frame onstart id0 w) as (_ & Ht & _ & Hst' & _).
    cbn [Speech.step]. split; [congruence|]. rewrite Ht. eauto.
  - pose proof (SpeechFacts.fire_frame onend id0 w) as (_ & Ht & _ & Hst' & _).
    cbn [Speech.step]. split; [congruence|]. rewrite Ht. eauto.
  - cbn [Speech.step]. destruct (onvoiceschanged w) as [[]|]; [|split; eauto].
    cbn. pose proof (SpeechFacts.chooseVoice_frame engine w)
      as (_ & Ht & _ & Hst' & _).
    split; [congruence|]. rewrite Ht. eauto.
  - cbn. split; eauto.
  - rewrite (SpeechFacts.millisecond_polling engine has_Utterance w id d Hp).
    unfold poll_period in Hd.
    destruct (Z.leb_spec d (Timers.clock (timers w) + 1)).
    + match goal with |- armed (poll engine ?x) =>
        pose proof (SpeechFacts.poll_frame engine x) as (_ & Ht & _ & Hst' & _) end.
      split; [rewrite Hst'; exact Hst|]. rewrite Ht. cbn.
      exists id, (d + 200). split; [reflexivity|]. unfold poll_period. lia.
    + split; [exact Hst|]. cbn.
      exists id, d. split; [reflexivity|]. unfold poll_period. lia.
Qed.

Lemma armed_run (evs : list (event E)) (w : World E) :
  Unmount ∉ evs → armed w → armed (run evs w).
Proof.
  revert w. induction evs as [|ev evs IH]; intros w Hno Hw; [exact Hw|].
  apply IH; [intros H; apply Hno; right; exact H|].
  apply armed_step; [intros ->; apply Hno; left | exact Hw].
Qed.

Lemma mount_armed (e : E) : armed (step Mount (initial (Some e))).
Proof.
  split; [reflexivity|]. exists 1%nat, 200. split; [reflexivity|].
  cbn. unfold poll_period. lia.
Qed.

Lemma millisecond_keeps_low (n : nat) (w : World E) :
  isSpeaking w = false → isSpeaking (run (repeat Millisecond n) w) = false.
Proof.
  revert w. induction n as [|n IH]; intros w Hlow; [exact Hlow|].
  cbn [repeat]. change (run (Millisecond :: ?l) w) with (run l (step Millisecond w)).
  apply IH. cbn [Speech.step].
  destruct (Timers.tick (timers w)) as [cbs ts].
  destruct (isSpeaking (foldl _ _ cbs)) eqn:Hhigh; [|reflexivity].
  apply SpeechFacts.callbacks_not_raise in Hhigh. cbn in Hhigh. congruence.
Qed.

Lemma poll_countdown (k : nat) (w : World E) (e : E) (id : nat) (d : Z) :
  stage w = Mounted → synth w = Some e → speaking engine e = false →
  Timers.pending (timers w) = [poll_timer id d] →
  d = Timers.clock (timers w) + Z.of_nat (S k) →
  isSpeaking (run (repeat Millisecond (S k)) w) = false.
Proof.
  revert w. induction k as [|k IH]; intros w Hst Hs Hidle Hp Hd.
  - cbn [repeat]. change (run [Millisecond] w) with (step Millisecond w).
    rewrite (SpeechFacts.millisecond_polling engine has_Utterance w id d Hp).
    destruct (Z.leb_spec d (Timers.clock (timers w) + 1)); [|lia].
    apply (SpeechFacts.poll_idle engine _ e); [exact Hs | exact Hidle|].
    cbn. congruence.
  - change (repeat Millisecond (S (S k)))
      with (Millisecond :: repeat (@Millisecond E) (S k)).
    change (run (Millisecond :: ?l) w) with (run l (step Millisecond w)).
    rewrite (SpeechFacts.millisecond_polling engine has_Utterance w id d Hp).
    destruct (Z.leb_spec d (Timers.clock (timers w) + 1)); [lia|].
    apply IH; [exact Hst | exact Hs | exact Hidle | reflexivity|]. cbn. lia.
Qed.

(** X7: The poll repairs a missed end event: in a controller that is mounted
    on a host with an engine, once the engine is idle the signal is false
    after at most 200 milliseconds, with no event from the engine. *)
Theorem poll_repairs (e0 e : E) (evs : list (event E))
  (Hmounted : Unmount ∉ evs)
  (Hengine : synth (run (Mount :: evs) (initial (Some e0))) = Some e)
  (Hidle : speaking engine e = false) :
  isSpeaking (run (repeat Millisecond 200) (run (Mount :: evs) (initial (Some e0))))
  = false.
Proof.
  set (w := run (Mount :: evs) (initial (Some e0))) in *.
  assert (Ha : armed w) by (apply (armed_run evs _ Hmounted), mount_armed).
  destruct Ha as (Hst & id & d & Hp & Hd). unfold poll_period in Hd.
  set (k := Z.to_nat (d - Timers.clock (timers w) - 1)).
  assert (Hsplit : (200 = S k + (200 - S k))%nat) by lia.
  rewrite Hsplit, repeat_app, SpeechFacts.run_app.
  apply millisecond_keeps_low.
  apply (poll_countdown k w e id d Hst Hengine Hidle Hp). lia.
Qed.

(** *** Engines that honour [cancel] *)

(** X20: On an engine whose [cancel] leaves no utterance active and whose
    [speak] adds at most one, a call of [speak] leaves at most one
    utterance active, however many were active before. *)
Theorem speak_single_active (active : E → nat) (t : string) (w : World E)
  (e e1 : E)
  (Hcontract_cancel : ∀ x x', cancel engine x = (Normal tt, x') → active x' = 0%nat)
  (Hcontract_speak : ∀ u x c x', speak engine u x = (c, x') →
                                 (active x' <= S (active x))%nat)
  (Hengine : synth w = Some e)
  (Hcancel : cancel engine e = (Normal tt, e1)) :
  ∃ e', synth (step (Speak t) w) = Some e' ∧ (active e' <= 1)%nat.
Proof.
  cbn [Speech.step].
  rewrite (SpeechFacts.speak_call_run engine has_Utterance t w e Hengine), Hcancel.
  pose proof (Hcontract_cancel e e1 Hcancel) as H0.
  destruct has_Utterance.
  - cbv zeta. cbn [snd synth with_synth].
    destruct (speak engine (built_utterance t (preferredVoiceRef w)) e1)
      as [c e2] eqn:Hs.
    exists e2. split; [reflexivity|].
    pose proof (Hcontract_speak _ _ _ _ Hs). cbn [snd]. lia.
  - exists e1. split; [reflexivity | lia].
Qed.

End More.

Lemma voice_written_by_listener_only_witness :
  preferredVoiceRef
    (Speech.step (queue_engine true) true (Speak "cat")
       (Speech.step (queue_engine true) true Mount (initial (Some silent))))
  = preferredVoiceRef
      (Speech.step (queue_engine true) true Mount (initial (Some silent))).
Proof.
  apply (voice_written_by_listener_only (queue_engine true) true (Speak "cat"));
    discriminate.
Defined.

Lemma poll_repairs_witness :
  isSpeaking
    (Speech.run (queue_engine true) true
       [Mount; Speak "cat"; UtteranceStart 0; EngineChange (fun _ => silent)]
       (initial (Some silent))) = true
  ∧ isSpeaking
      (Speech.run (queue_engine true) true (repeat Millisecond 200)
         (Speech.run (queue_engine true) true
            [Mount; Speak "cat"; UtteranceStart 0; EngineChange (fun _ => silent)]
            (initial (Some silent)))) = false.
Proof.
  split; [vm_compute; reflexivity|].
  apply (poll_repairs (queue_engine true) true silent silent
           [Speak "cat"; UtteranceStart 0; EngineChange (fun _ => silent)]).
  - intros H. repeat (apply elem_of_cons in H as [H|H]; [discriminate H|]).
    inversion H.
  - reflexivity.
  - reflexivity.
Defined.

Lemma speak_single_active_witness :
  ∃ e', synth (Speech.step (queue_engine true) true (Speak "dog")
                 (Speech.run (queue_engine true) true
                    [Mount; Speak "cat"; UtteranceStart 0] (initial (Some silent))))
        = Some e'
        ∧ (length (queue e') <= 1)%nat.
Proof.
  apply (speak_single_active (queue_engine true) true
           (fun e => length (queue e)) "dog" _
           {| voices := []; queue := [built_utterance "cat" None] |} silent).
  - intros x x' [= <-]. reflexivity.
  - intros u x c x' [= _ <-]. cbn. rewrite length_app. cbn. lia.
  - reflexivity.
  - reflexivity.
Defined.

End SpeechMoreFacts.

(** ** The lookup tables *)

Module TablesFacts.
Import Tables.

Lemma foldl_insert_lookup (bindings : list (string * string))
  (o : gmap string string) (k v : string) :
  foldl (fun o kv => <[kv.1 := kv.2]> o) o bindings !! k = Some v →
  (k, v) ∈ bindings ∨ o !! k = Some v.
Proof.
  revert o. induction bindings as [|[k1 v1] l IH]; intros o H; [right; exact H|].
  cbn in H. apply IH in H as [H|H]; [left; right; exact H|].
  destruct (decide (k1 = k)) as [->|Hne].
  - rewrite lookup_insert_eq in H. injection H as ->. left; left.
  - rewrite lookup_insert_ne in H by exact Hne. right. exact H.
Qed.

Lemma object_literal_lookup (bindings : list (string * string)) (k v : string) :
  object_literal bindings !! k = Some v → (k, v) ∈ bindings.
Proof.
  intros H. apply foldl_insert_lookup in H as [H|H]; [exact H|].
  rewrite lookup_empty in H. discriminate.
Qed.

Lemma bindings_all (P : string → bool) (bindings : list (string * string))
  (k v : string) :
  forallb (fun kv => P kv.2) bindings = true →
  object_literal bindings !! k = Some v → P v = true.
Proof.
  intros Hall H. apply object_literal_lookup in H.
  rewrite forallb_forall in Hall.
  apply (Hall (k, v)). apply list_elem_of_In. exact H.
Qed.

Lemma prototype_not_in_tables :
  forallb (fun n => bool_decide (color_map !! n = None)
                    && bool_decide (icon_map !! n = None)
                    && bool_decide (CATEGORY_ICONS !! n = None))
    Object_prototype = true.
Proof. vm_compute. reflexivity. Qed.

Lemma inherited_get (name : string) :
  name ∈ Object_prototype →
  get color_map name = Inherited name ∧ get icon_map name = Inherited name.
Proof.
  intros Hin. pose proof prototype_not_in_tables as Hall.
  rewrite forallb_forall in Hall.
  specialize (Hall name (proj1 (list_elem_of_In _ _) Hin)).
  apply andb_prop in Hall as [Hall _]. apply andb_prop in Hall as [Hc Hi].
  apply bool_decide_eq_true in Hc, Hi.
  unfold get. rewrite Hc, Hi. rewrite bool_decide_true by exact Hin.
  split; reflexivity.
Qed.

Lemma colorValue_cases (name : string) :
  (name ∉ Object_prototype →
     ∃ s, colorValue name = Text s ∧ is_hex_colour s = true
          ∧ (color_map !! name = None → s = "#cccccc"%string)
          ∧ (∀ v, color_map !! name = Some v → s = v))
  ∧ (name ∈ Object_prototype → colorValue name = Inherited name).
Proof.
  split.
  - intros Hout. unfold colorValue, get.
    destruct (color_map !! name) as [v|] eqn:Hv.
    + assert (Hok : (negb (String.eqb v "") && is_hex_colour v) = true).
      { apply (bindings_all (fun v => negb (String.eqb v "") && is_hex_colour v)
                 color_bindings name v); [vm_compute; reflexivity | exact Hv]. }
      apply andb_prop in Hok as [Hne Hhex].
      exists v. cbn. destruct (String.eqb v ""); [discriminate Hne|].
      split; [reflexivity|]. split; [exact Hhex|].
      split; [discriminate | congruence].
    + rewrite bool_decide_false by exact Hout. cbn.
      exists "#cccccc"%string. split; [reflexivity|]. split; [reflexivity|].
      split; [reflexivity | discriminate].
  - intros Hin. unfold colorValue.
    rewrite (proj1 (inherited_get name Hin)). reflexivity.
Qed.

Lemma itemIcon_cases (category_key slug : string) :
  (category_key = "letters"%string ∨ category_key = "numbers"%string →
     itemIcon category_key slug = Text slug)
  ∧ (category_key ≠ "letters"%string → category_key ≠ "numbers"%string →
     slug ∉ Object_prototype →
     ∃ g, itemIcon category_key slug = Text g ∧ g ≠ ""%string
          ∧ (icon_map !! slug = None → g = "🖼️"%string)
          ∧ (category_key ≠ "colors"%string → slug = "orange"%string →
             Some g = icon_map !! "orange_fruit"%string))
  ∧ (category_key ≠ "letters"%string → category_key ≠ "numbers"%string →
     slug ∈ Object_prototype → itemIcon category_key slug = Inherited slug).
Proof.
  unfold itemIcon. split; [|split].
  - intros [-> | ->]; reflexivity.
  - intros Hl Hn Hout.
    apply String.eqb_neq in Hl, Hn. rewrite Hl, Hn.
    destruct (String.eqb_spec category_key "colors") as [Hc|Hc];
      destruct (String.eqb_spec slug "orange") as [Ho|Ho]; cbn [negb andb].
    + subst. eexists. split; [vm_compute; reflexivity|].
      split; [discriminate|].
      split; [intros H; vm_compute in H; discriminate H | congruence].
    + unfold get. destruct (icon_map !! slug) as [v|] eqn:Hv.
      * assert (Hok : negb (String.eqb v "") = true).
        { apply (bindings_all (fun v => negb (String.eqb v ""))
                   icon_bindings slug v); [vm_compute; reflexivity | exact Hv]. }
        exists v. cbn. destruct (String.eqb_spec v ""); [discriminate Hok|].
        split; [reflexivity|]. split; [assumption|].
        split; [intros H; discriminate H | intros; congruence].
      * rewrite bool_decide_false by exact Hout. cbn.
        eexists. split; [reflexivity|]. split; [discriminate|].
        split; [reflexivity | intros; congruence].
    + subst slug. eexists. split; [vm_compute; reflexivity|].
      split; [discriminate|].
      split; [intros H; vm_compute in H; discriminate H|].
      intros _ _. vm_compute. reflexivity.
    + unfold get. destruct (icon_map !! slug) as [v|] eqn:Hv.
      * assert (Hok : negb (String.eqb v "") = true).
        { apply (bindings_all (fun v => negb (String.eqb v ""))
                   icon_bindings slug v); [vm_compute; reflexivity | exact Hv]. }
        exists v. cbn. destruct (String.eqb_spec v ""); [discriminate Hok|].
        split; [reflexivity|]. split; [assumption|].
        split; [intros H; discriminate H | intros; congruence].
      * rewrite bool_decide_false by exact Hout. cbn.
        eexists. split; [reflexivity|]. split; [discriminate|].
        split; [reflexivity | intros; congruence].
  - intros Hl Hn Hin.
    apply String.eqb_neq in Hl, Hn. rewrite Hl, Hn.
    assert (Ho : String.eqb slug "orange" = false).
    { apply String.eqb_neq. intros ->.
      repeat (apply elem_of_cons in Hin as [Hin|Hin]; [discriminate Hin|]).
      inversion Hin. }
    rewrite Ho, andb_false_r.
    rewrite (proj2 (inherited_get slug Hin)). reflexivity.
Qed.

(** X8: [colorValue] yields a colour of the form [#rrggbb] for every name but
    the property names of [Object.prototype]: the colour the table has
    for the name, and [#cccccc] for a name the table does not have.  For
    a property name of [Object.prototype] it yields the inherited value,
    which is no colour. *)
Theorem colorValue_result (name : string) :
  (name ∉ Object_prototype →
     ∃ s, colorValue name = Text s ∧ is_hex_colour s = true
          ∧ (color_map !! name = None → s = "#cccccc"%string)
          ∧ (∀ v, color_map !! name = Some v → s = v))
  ∧ (name ∈ Object_prototype → colorValue name = Inherited name).
Proof. exact (colorValue_cases name). Qed.

(** X9: [itemIcon] echoes the slug in the letters and numbers categories.  In
    every other category it yields a glyph that is not empty for every
    slug but the property names of [Object.prototype], the placeholder
    when the table does not have the slug; outside the colors category
    the slug "orange" is the fruit, whatever the table has for it. *)
Theorem itemIcon_result (category_key slug : string) :
  (category_key = "letters"%string ∨ category_key = "numbers"%string →
     itemIcon category_key slug = Text slug)
  ∧ (category_key ≠ "letters"%string → category_key ≠ "numbers"%string →
     slug ∉ Object_prototype →
     ∃ g, itemIcon category_key slug = Text g ∧ g ≠ ""%string
          ∧ (icon_map !! slug = None → g = "🖼️"%string)
          ∧ (category_key ≠ "colors"%string → slug = "orange"%string →
             Some g = icon_map !! "orange_fruit"%string))
  ∧ (category_key ≠ "letters"%string → category_key ≠ "numbers"%string →
     slug ∈ Object_prototype → itemIcon category_key slug = Inherited slug).
Proof. exact (itemIcon_cases category_key slug). Qed.

(** X10: Every card has a picture that can be drawn, for an item whose slug is
    not empty and is no property name of [Object.prototype]: in the colors
    category a swatch with a colour of the form [#rrggbb]; in the other
    categories the image of the item, when it has a source that is not
    empty, with a glyph to fall back on, and else a glyph; the glyphs are
    never empty.  Which of the three it is depends on the category and on
    the source of the image alone. *)
Theorem item_picture_drawable (category_key : string) (item : Screens.Item)
  (Hslug : Screens.slug item ≠ ""%string)
  (Hown : Screens.slug item ∉ Object_prototype) :
  match Views.item_picture category_key item with
  | Views.Swatch v =>
      category_key = "colors"%string ∧ ∃ s, v = Text s ∧ is_hex_colour s = true
  | Views.Image src alt fallback =>
      Screens.iconUrl item = Some src ∧ src ≠ ""%string
      ∧ alt = Screens.label item
      ∧ ∃ g, fallback = Text g ∧ g ≠ ""%string
  | Views.Glyph v => ∃ g, v = Text g ∧ g ≠ ""%string
  end
  ∧ (category_key = "colors"%string →
       Views.item_picture category_key item
       = Views.Swatch (colorValue (Screens.slug item)))
  ∧ (category_key ≠ "colors"%string →
       ∀ src, Screens.iconUrl item = Some src → src ≠ ""%string →
         Views.item_picture category_key item
         = Views.Image src (Screens.label item)
             (itemIcon category_key (Screens.slug item)))
  ∧ (category_key ≠ "colors"%string →
       Screens.iconUrl item = None ∨ Screens.iconUrl item = Some ""%string →
       Views.item_picture category_key item
       = Views.Glyph (itemIcon category_key (Screens.slug item))).
Proof.
  split; [|unfold Views.item_picture; split; [|split]].
  2: { intros ->. reflexivity. }
  2: { intros Hc src Hsrc Hne. apply String.eqb_neq in Hc, Hne.
       rewrite Hc, Hsrc, Hne. reflexivity. }
  2: { intros Hc Hurl. apply String.eqb_neq in Hc. rewrite Hc.
       destruct Hurl as [-> | ->]; reflexivity. }
  assert (Hglyph : category_key ≠ "colors"%string →
            ∃ g, itemIcon category_key (Screens.slug item) = Text g ∧ g ≠ ""%string).
  { intros _.
    destruct (itemIcon_cases category_key (Screens.slug item)) as (Hecho & Hmap & _).
    destruct (decide (category_key = "letters"%string)) as [Hl|Hl];
      [exists (Screens.slug item); split; [apply Hecho; auto | exact Hslug]|].
    destruct (decide (category_key = "numbers"%string)) as [Hn|Hn];
      [exists (Screens.slug item); split; [apply Hecho; auto | exact Hslug]|].
    destruct (Hmap Hl Hn Hown) as (g & Hg & Hne & _). eauto. }
  unfold Views.item_picture.
  destruct (String.eqb_spec category_key "colors") as [Hc|Hc].
  - split; [exact Hc|].
    destruct (colorValue_cases (Screens.slug item)) as (Hcol & _).
    destruct (Hcol Hown) as (s & Hs & Hhex & _). eauto.
  - destruct (Screens.iconUrl item) as [url|]; [|apply Hglyph, Hc].
    destruct (String.eqb_spec url ""); [apply Hglyph, Hc|].
    repeat split; [assumption | apply Hglyph, Hc].
Qed.

Lemma item_picture_drawable_witness :
  ∃ g, Views.item_picture "animals"
         {| Screens.slug := "cat"; Screens.label := "Cat";
            Screens.iconUrl := None |}
       = Views.Glyph (Text g) ∧ g ≠ ""%string.
Proof.
  assert (Hslug : "cat"%string ≠ ""%string) by discriminate.
  assert (Hown : "cat"%string ∉ Object_prototype).
  { intros Hin.
    repeat (apply elem_of_cons in Hin as [Hin|Hin]; [discriminate Hin|]).
    inversion Hin. }
  pose proof (item_picture_drawable "animals"
                {| Screens.slug := "cat"; Screens.label := "Cat";
                   Screens.iconUrl := None |} Hslug Hown) as (H & _).
  change (Views.item_picture "animals" _)
    with (Views.Glyph (itemIcon "animals" "cat")) in H |- *.
  cbv beta iota in H. destruct H as (g & Hg & Hne).
  exists g. rewrite Hg. split; [reflexivity | exact Hne].
Defined.

End TablesFacts.

(** ** More on the screens *)

Module ViewsFacts.
Import Speech Screens Tables Views.

Section Composition.
Variable CATEGORIES : list CategoryData.
Variable localeCompare : string → string → JS.number.

(** What the Category screen returns for a key the catalog has. *)
Lemma Category_run (k : string) (c : CategoryData) (isSpeaking : bool)
  (h : store) (xs : list Item) :
  JS.find (fun c' => String.eqb (key c') k) CATEGORIES = Some c →
  h !! items c = Some xs →
  Category CATEGORIES localeCompare k isSpeaking h =
  (Normal (Some {| title := category_label c; playing := isSpeaking;
                   cards := make_card (key c) <$>
                            JS.sort (comparator localeCompare (key c)) xs |}),
   <[fresh (dom h) := JS.sort (comparator localeCompare (key c)) xs]>
     (<[fresh (dom h) := xs]> h)).
Proof.
  intros Hfind Hxs. unfold Category. rewrite Hfind.
  rewrite bool_decide_true by (eexists; reflexivity). cbn [negb].
  cbv beta iota zeta delta [mbind M_bind bind mret M_ret ret prop].
  rewrite (ScreensFacts.sorted_items_run localeCompare c xs h Hxs).
  unfold read_array. rewrite lookup_insert_eq.
  rewrite ScreensFacts.map_M_card. reflexivity.
Qed.

Lemma find_key (k : string) (c : CategoryData) :
  JS.find (fun c' => String.eqb (key c') k) CATEGORIES = Some c →
  c ∈ CATEGORIES ∧ key c = k.
Proof.
  intros H. apply List.find_some in H as [Hin Hk].
  split; [apply list_elem_of_In, Hin | apply String.eqb_eq, Hk].
Qed.

Lemma find_offered (c0 : CategoryData) :
  c0 ∈ CATEGORIES →
  ∃ c, JS.find (fun c' => String.eqb (key c') (key c0)) CATEGORIES = Some c.
Proof.
  intros Hin. unfold JS.find.
  destruct (List.find _ CATEGORIES) as [c|] eqn:Hf; [eauto|].
  apply list_elem_of_In in Hin.
  pose proof (List.find_none _ _ Hf c0 Hin) as Hno. cbn in Hno.
  rewrite String.eqb_refl in Hno. discriminate.
Qed.

(** X11: Every button of [Home] opens a Category screen that renders: a click
    on it after the splash moves the application to the category of its
    key, and the Category screen for that key returns a view, titled
    with the label of the first category of the catalog that has the
    key, with one card for each of its items.  (A category whose key is
    the literal "home" is the exception: the screen keeps the value
    "home", which [App] reads as the home screen.) *)
Theorem home_button_opens (b : Button) (a : Navigation.App) (h : store)
  (isSpeaking : bool)
  (Hbutton : b ∈ Home CATEGORIES)
  (Hhome : Navigation.state a = Navigation.Home)
  (Hlive : Navigation.unmounted a = false)
  (Hstore : ∀ c, c ∈ CATEGORIES → is_Some (h !! items c)) :
  (button_key b = "home"%string →
     Navigation.state (Navigation.step (onClick b) a) = Navigation.Home)
  ∧ (button_key b ≠ "home"%string →
     Navigation.state (Navigation.step (onClick b) a)
     = Navigation.Category (button_key b))
  ∧ ∃ c xs view h',
      JS.find (fun c' => String.eqb (key c') (button_key b)) CATEGORIES = Some c
      ∧ h !! items c = Some xs
      ∧ Category CATEGORIES localeCompare
          (Navigation.screen (Navigation.step (onClick b) a)) isSpeaking h
        = (Normal (Some view), h')
      ∧ title view = category_label c
      ∧ length (cards view) = length xs.
Proof.
  apply list_elem_of_fmap in Hbutton as (c0 & -> & Hin). cbn.
  rewrite Hhome. unfold Navigation.setScreen. rewrite Hlive.
  unfold Navigation.state in *. cbn.
  destruct (Navigation.showSplash a); [discriminate Hhome|].
  split; [|split].
  - intros ->. reflexivity.
  - intros Hne. apply String.eqb_neq in Hne. rewrite Hne. reflexivity.
  - destruct (find_offered c0 Hin) as (c & Hfind).
    destruct (find_key _ _ Hfind) as (Hc & Hk).
    destruct (Hstore c Hc) as (xs & Hxs).
    eexists c, xs, _, _. split; [exact Hfind|]. split; [exact Hxs|].
    split; [apply (Category_run _ c isSpeaking h xs Hfind Hxs)|].
    split; [reflexivity|]. cbn.
    rewrite length_fmap. apply Permutation_length, JSFacts.sort_perm.
Qed.

(** X12: The keys React gets for the cards are the slugs: when the slugs of a
    category are distinct, so are the keys of its cards, and the cards
    are those of the items, each exactly once. *)
Theorem card_keys_unique (k : string) (c : CategoryData) (isSpeaking : bool)
  (h : store) (xs : list Item)
  (Hfind : JS.find (fun c' => String.eqb (key c') k) CATEGORIES = Some c)
  (Hitems : h !! items c = Some xs)
  (Hslugs : NoDup (slug <$> xs)) :
  ∃ view h',
    Category CATEGORIES localeCompare k isSpeaking h = (Normal (Some view), h')
    ∧ NoDup (card_key <$> cards view)
    ∧ Permutation (cards view) (make_card k <$> xs).
Proof.
  destruct (find_key _ _ Hfind) as (_ & Hk).
  eexists _, _. split; [apply (Category_run k c isSpeaking h xs Hfind Hitems)|].
  cbn. rewrite Hk.
  assert (Hperm : Permutation (JS.sort (comparator localeCompare k) xs) xs)
    by apply JSFacts.sort_perm.
  split.
  - rewrite <- list_fmap_compose.
    assert (Heq : (card_key ∘ make_card k) <$> JS.sort (comparator localeCompare k) xs
                  = slug <$> JS.sort (comparator localeCompare k) xs)
      by (apply list_fmap_ext; intros; reflexivity).
    rewrite Heq, Hperm. exact Hslugs.
  - rewrite Hperm. reflexivity.
Qed.

(** X13: A render does not depend on the renders before it: the screen
    rendered again on the store the first render left gives the same
    view.  Each render leaves exactly one new array in the store and
    changes no array that was there. *)
Theorem rerender_same_view (k : string) (c : CategoryData)
  (b1 b2 : bool) (h : store) (xs : list Item)
  (Hfind : JS.find (fun c' => String.eqb (key c') k) CATEGORIES = Some c)
  (Hitems : h !! items c = Some xs) :
  ∃ view1 view2 h1 h2,
    Category CATEGORIES localeCompare k b1 h = (Normal (Some view1), h1)
    ∧ Category CATEGORIES localeCompare k b2 h1 = (Normal (Some view2), h2)
    ∧ cards view2 = cards view1 ∧ title view2 = title view1
    ∧ dom h1 = {[fresh (dom h)]} ∪ dom h
    ∧ (fresh (dom h) ∉ dom h)
    ∧ (∀ l zs, h !! l = Some zs → h1 !! l = Some zs ∧ h2 !! l = Some zs).
Proof.
  set (ys := JS.sort (comparator localeCompare (key c)) xs).
  set (h1 := <[fresh (dom h) := ys]> (<[fresh (dom h) := xs]> h) : store).
  assert (Hfresh : ∀ l zs, h !! l = Some zs → l ≠ fresh (dom h)).
  { intros l zs Hl ->. apply (is_fresh (dom h)).
    apply elem_of_dom. exists zs. exact Hl. }
  assert (Hkeep1 : ∀ l zs, h !! l = Some zs → h1 !! l = Some zs).
  { intros l zs Hl. pose proof (Hfresh l zs Hl). unfold h1.
    rewrite !lookup_insert_ne by congruence. exact Hl. }
  assert (Hfresh1 : ∀ l zs, h1 !! l = Some zs → l ≠ fresh (dom h1)).
  { intros l zs Hl ->. apply (is_fresh (dom h1)).
    apply elem_of_dom. exists zs. exact Hl. }
  pose proof (Category_run k c b1 h xs Hfind Hitems) as Hrun1.
  pose proof (Category_run k c b2 h1 xs Hfind (Hkeep1 _ _ Hitems)) as Hrun2.
  do 4 eexists. split; [exact Hrun1|]. split; [exact Hrun2|].
  split; [reflexivity|]. split; [reflexivity|]. split; [|split].
  - fold ys. fold h1. unfold h1. rewrite !dom_insert_L.
    rewrite (assoc_L (∪)), (idemp_L (∪)). reflexivity.
  - apply is_fresh.
  - intros l zs Hl. fold ys. fold h1. split; [apply Hkeep1, Hl|].
    pose proof (Hfresh1 l zs (Hkeep1 l zs Hl)).
    rewrite !lookup_insert_ne by congruence. apply Hkeep1, Hl.
Qed.

End Composition.

Lemma home_button_opens_witness :
  ∃ c xs view h',
    JS.find (fun c' => String.eqb (key c') "numbers") sample_catalog = Some c
    ∧ (sample_store : store) !! items c = Some xs
    ∧ Category sample_catalog ordinal_compare
        (Navigation.screen
           (Navigation.step (Navigation.OpenCategory "numbers")
              Navigation.home_reached)) true sample_store
      = (Normal (Some view), h')
    ∧ title view = category_label c
    ∧ length (cards view) = length xs.
Proof.
  apply (home_button_opens sample_catalog ordinal_compare
           {| button_key := "numbers"; aria_label := "Numbers";
              button_icon := category_icon "numbers";
              onClick := Navigation.OpenCategory "numbers" |}
           Navigation.home_reached sample_store true).
  - apply list_elem_of_In. left. reflexivity.
  - vm_compute. reflexivity.
  - vm_compute. reflexivity.
  - intros c Hc.
    repeat (apply elem_of_cons in Hc as [->|Hc]; [eexists; reflexivity|]).
    inversion Hc.
Defined.

Lemma card_keys_unique_witness :
  ∃ view h',
    Category sample_catalog ordinal_compare "letters" false sample_store
    = (Normal (Some view), h')
    ∧ NoDup (card_key <$> cards view)
    ∧ Permutation (cards view) (make_card "letters" <$> sample_letters).
Proof.
  apply (card_keys_unique sample_catalog ordinal_compare "letters"
           {| key := "letters"; category_label := "Letters"; items := 2%positive |}
           false sample_store sample_letters).
  - reflexivity.
  - reflexivity.
  - apply NoDup_cons. split; [|apply NoDup_singleton].
    intros H. apply list_elem_of_singleton in H. discriminate H.
Defined.

Lemma rerender_same_view_witness :
  ∃ view1 view2 h1 h2,
    Category sample_catalog ordinal_compare "numbers" false sample_store
    = (Normal (Some view1), h1)
    ∧ Category sample_catalog ordinal_compare "numbers" true h1
      = (Normal (Some view2), h2)
    ∧ cards view2 = cards view1.
Proof.
  destruct (rerender_same_view sample_catalog ordinal_compare "numbers"
              {| key := "numbers"; category_label := "Numbers"; items := 1%positive |}
              false true sample_store sample_numbers)
    as (v1 & v2 & h1 & h2 & H1 & H2 & Hc & _);
    [reflexivity | reflexivity |].
  exists v1, v2, h1, h2. auto.
Defined.

End ViewsFacts.

(** ** More on the navigation *)

Module NavigationMoreFacts.
Import Navigation.

Lemma run_callback_frame (c : callback) (a : App) :
  screen (run_callback c a) = screen a
  ∧ unmounted (run_callback c a) = unmounted a
  ∧ showSplash (run_callback c a) = (if unmounted a then showSplash a else false).
Proof.
  destruct c. unfold run_callback, setShowSplash_false. cbn.
  destruct (unmounted a) eqn:Hu; cbn; [repeat split; assumption|].
  unfold run_splash_cleanup. cbn.
  destruct (splash_cleanup a); cbn; repeat split; assumption.
Qed.

Lemma navigation_callbacks_frame (cbs : list callback) (a : App) :
  screen (foldl (fun a c => run_callback c a) a cbs) = screen a
  ∧ unmounted (foldl (fun a c => run_callback c a) a cbs) = unmounted a
  ∧ (showSplash a = false →
     showSplash (foldl (fun a c => run_callback c a) a cbs) = false)
  ∧ (unmounted a = true →
     showSplash (foldl (fun a c => run_callback c a) a cbs) = showSplash a).
Proof.
  revert a. induction cbs as [|c cbs IH]; intros a; [repeat split; auto|].
  cbn [foldl]. destruct (IH (run_callback c a)) as (Hs & Hu & Hf & Ht).
  destruct (run_callback_frame c a) as (Hs' & Hu' & Hf').
  rewrite Hs, Hu, Hs', Hu'. repeat split.
  - intros Hlow. apply Hf. rewrite Hf', Hlow. destruct (unmounted a); reflexivity.
  - intros Hun. rewrite Ht by congruence. rewrite Hf', Hun. reflexivity.
Qed.

Lemma step_frame (ev : event) (a : App) :
  (showSplash a = false → showSplash (step ev a) = false)
  ∧ (unmounted a = true →
     unmounted (step ev a) = true ∧ showSplash (step ev a) = showSplash a
     ∧ screen (step ev a) = screen a)
  ∧ (ev ≠ Teardown → unmounted (step ev a) = unmounted a)
  ∧ (screen (step ev a) ≠ screen a → (∃ k, ev = OpenCategory k) ∨ ev = Back).
Proof.
  destruct ev.
  - cbn. destruct (unmounted a) eqn:Hu; [repeat split; congruence|].
    destruct (showSplash a) eqn:Hs, (splash_cleanup a); cbn;
      repeat split; congruence.
  - cbn [step]. destruct (Timers.tick (timers a)) as [cbs ts].
    match goal with |- context [foldl _ ?x cbs] =>
      destruct (navigation_callbacks_frame cbs x) as (Hs & Hu & Hf & Ht) end.
    cbn in *. rewrite Hs, Hu. repeat split; try congruence; auto.
  - cbn. destruct (state a); unfold setScreen;
      destruct (unmounted a) eqn:Hu; cbn; repeat split; eauto; congruence.
  - cbn. destruct (state a); unfold setScreen;
      destruct (unmounted a) eqn:Hu; cbn; repeat split; eauto; congruence.
  - cbn. destruct (unmounted a) eqn:Hu; [repeat split; congruence|].
    unfold run_splash_cleanup. destruct (splash_cleanup a); cbn;
      repeat split; congruence.
Qed.

(** X14: Opening a category from [Home] and going back leaves the application
    exactly as it was. *)
Theorem open_then_back (k : string) (a : App)
  (Hhome : state a = Home) (Hlive : unmounted a = false) :
  step Back (step (OpenCategory k) a) = a.
Proof.
  destruct a as [sp sc ts cl un dn]. unfold state in Hhome. cbn in *. subst un.
  destruct sp; [discriminate Hhome|].
  destruct (String.eqb_spec sc "home") as [->|]; [|discriminate Hhome].
  cbn. unfold state. cbn.
  destruct (String.eqb_spec k "home") as [->|Hk]; reflexivity.
Qed.

Lemma open_then_back_witness :
  step Back (step (OpenCategory "colors") home_reached) = home_reached.
Proof.
  apply (open_then_back "colors" home_reached); vm_compute; reflexivity.
Defined.

(** X15: The moves of the navigation: once the splash is gone it never comes
    back; a category screen is left only by the back action, and only to
    the home screen; after the root is unmounted nothing moves; and the
    screen changes on a selection or on the back action only. *)
Theorem navigation_moves (ev : event) (a : App) :
  (showSplash a = false → showSplash (step ev a) = false)
  ∧ (∀ k, state a = Category k →
       state (step ev a) = Category k ∨ (ev = Back ∧ state (step ev a) = Home))
  ∧ (unmounted a = true → state (step ev a) = state a)
  ∧ (screen (step ev a) ≠ screen a → (∃ k, ev = OpenCategory k) ∨ ev = Back).
Proof.
  destruct (step_frame ev a) as (Hgone & Hun & Hlive & Hscreen).
  split; [exact Hgone|]. split; [|split; [|exact Hscreen]].
  - intros k Hk. unfold state in Hk.
    destruct (showSplash a) eqn:Hs; [discriminate Hk|].
    destruct (String.eqb (screen a) "home") eqn:Hh; [discriminate Hk|].
    injection Hk as <-.
    destruct (decide (ev = Back)) as [->|Hback].
    + assert (Hst : state a = Category (screen a))
        by (unfold state; rewrite Hs, Hh; reflexivity).
      cbn [step]. rewrite Hst. unfold setScreen.
      destruct (unmounted a); [left; exact Hst|].
      right. split; [reflexivity|]. unfold state. cbn. rewrite Hs. reflexivity.
    + left. unfold state. rewrite (Hgone eq_refl).
      assert (Hsame : screen (step ev a) = screen a).
      { destruct (decide (screen (step ev a) = screen a)) as [|Hne]; [assumption|].
        destruct (Hscreen Hne) as [[k' Hk']|Hb]; [subst ev|congruence].
        cbn. unfold state. rewrite Hs, Hh. reflexivity. }
      rewrite Hsame, Hh. reflexivity.
  - intros Hu. destruct (Hun Hu) as (_ & Hs & Hsc).
    unfold state. rewrite Hs, Hsc. reflexivity.
Qed.

End NavigationMoreFacts.

(** ** The listener of [App], the effect of [Root] *)

Module GesturesFacts.
Import Navigation Gestures.

Lemma listening_step (ev : event) (p : Page) :
  listening p → listening (Gestures.step ev p).
Proof.
  destruct p as [a l c n]. unfold listening, Gestures.step. cbn.
  destruct (NavigationMoreFacts.step_frame ev a) as (Hgone & Hun & _ & _).
  destruct (unmounted a) eqn:Hu.
  - destruct (Hun eq_refl) as (Hu' & Hs' & _). rewrite Hu', Hs'. cbn.
    rewrite Bool.eqb_reflx, andb_false_r. cbn. rewrite Hu', andb_false_r.
    trivial.
  - destruct (showSplash a) eqn:Hs; cbn.
    + intros [-> ->].
      destruct (unmounted (Navigation.step ev a)) eqn:Hu'; cbn.
      * unfold cleanup. cbn. rewrite Hu', andb_false_r. split; reflexivity.
      * destruct (showSplash (Navigation.step ev a)) eqn:Hs'; cbn.
        -- rewrite Hs'. cbn. split; reflexivity.
        -- unfold cleanup, effect. cbn. rewrite Hs'. cbn. rewrite Hs', Hu'. cbn.
           exists n. split; reflexivity.
    + intros (h & -> & ->). rewrite (Hgone eq_refl). cbn.
      destruct (unmounted (Navigation.step ev a)) eqn:Hu'; cbn.
      * unfold cleanup, removeEventListener. cbn.
        rewrite decide_False by (intros Hne; apply Hne; reflexivity).
        rewrite Hu', andb_false_r. split; reflexivity.
      * rewrite (Hgone eq_refl), Hu'. cbn. exists h. split; reflexivity.
Qed.

(** X16: The handler that blocks the pinch gesture is registered exactly while
    the application is past the splash and mounted: never during the
    splash, never twice, and not any more once the root is unmounted. *)
Theorem gesture_listener (evs : list event) :
  (length (gesturestart (Gestures.run evs Gestures.initial)) <= 1)%nat
  ∧ (gesturestart (Gestures.run evs Gestures.initial) ≠ [] ↔
     showSplash (app (Gestures.run evs Gestures.initial)) = false
     ∧ unmounted (app (Gestures.run evs Gestures.initial)) = false)
  ∧ (gesture_cleanup (Gestures.run evs Gestures.initial) = None ↔
     gesturestart (Gestures.run evs Gestures.initial) = []).
Proof.
  assert (Hl : listening (Gestures.run evs Gestures.initial)).
  { unfold Gestures.run. generalize Gestures.initial, (conj eq_refl eq_refl
      : listening Gestures.initial).
    induction evs as [|ev evs IH]; intros p Hp; [exact Hp|].
    apply IH, listening_step, Hp. }
  unfold listening in Hl.
  destruct (showSplash (app _)), (unmounted (app _)); cbn in Hl;
    try (destruct Hl as [-> ->]; cbn;
         split; [lia|]; split; [split; [congruence | intros []; congruence]|];
         split; reflexivity).
  destruct Hl as (h & -> & ->). cbn.
  split; [lia|]. split; [split; [auto | discriminate]|].
  split; discriminate.
Qed.

End GesturesFacts.

Module RootFacts.
Import Root.

Section Effect.
Variable is_manifest : Element → bool.
Hypothesis Hlink : is_manifest manifest_link = true.

Lemma querySelector_none (w : Window) :
  querySelector is_manifest w = None ↔ manifests is_manifest w = [].
Proof.
  unfold querySelector, manifests, JS.find.
  induction (head w ++ body w) as [|e l IH]; [split; reflexivity|].
  cbn. destruct (is_manifest e) eqn:He.
  - rewrite decide_True by reflexivity. split; discriminate.
  - rewrite decide_False by discriminate. exact IH.
Qed.

Lemma effect_found (w : Window) :
  manifests is_manifest w ≠ [] →
  head (effect is_manifest w) = head w ∧ body (effect is_manifest w) = body w
  ∧ serviceWorker (effect is_manifest w) = serviceWorker w
  ∧ load_listeners (effect is_manifest w)
    = (load_listeners w + if serviceWorker w then 1 else 0)%nat.
Proof.
  intros Hm. unfold effect.
  destruct (querySelector is_manifest w) eqn:Hq.
  - destruct (serviceWorker w) eqn:Hs; cbn; rewrite ?Hs; repeat split; lia.
  - apply querySelector_none in Hq. contradiction.
Qed.

Lemma effect_missing (w : Window) :
  manifests is_manifest w = [] →
  head (effect is_manifest w) = head w ++ [manifest_link]
  ∧ body (effect is_manifest w) = body w
  ∧ serviceWorker (effect is_manifest w) = serviceWorker w
  ∧ load_listeners (effect is_manifest w)
    = (load_listeners w + if serviceWorker w then 1 else 0)%nat
  ∧ manifests is_manifest (effect is_manifest w) = [manifest_link].
Proof.
  intros Hm. pose proof (proj2 (querySelector_none w) Hm) as Hq.
  assert (Hfilter : manifests is_manifest (effect is_manifest w) = [manifest_link]).
  { unfold effect. rewrite Hq. unfold manifests in *.
    assert (Hsplit : filter (fun e => is_manifest e = true)
                       ((head w ++ [manifest_link]) ++ body w) = [manifest_link]).
    { rewrite filter_app in Hm. apply app_eq_nil in Hm as [Hh Hb].
      rewrite !filter_app, Hh, Hb. cbn.
      rewrite decide_True by exact Hlink. reflexivity. }
    destruct (serviceWorker w); cbn; exact Hsplit. }
  unfold effect in *. rewrite Hq in *.
  destruct (serviceWorker w) eqn:Hs; cbn in *; rewrite ?Hs;
    repeat split; try lia; exact Hfilter.
Qed.

(** X17: However often the effect of [Root] runs, the manifest link is added
    at most once, and only when the document had none; the body is left
    alone.  The listener for [load] that registers the service worker is
    not guarded: every run adds one when the host has service workers. *)
Theorem manifest_added_once (n : nat) (w : Window) :
  (manifests is_manifest w = [] →
     head (Nat.iter (S n) (effect is_manifest) w) = head w ++ [manifest_link])
  ∧ (manifests is_manifest w ≠ [] →
     head (Nat.iter (S n) (effect is_manifest) w) = head w)
  ∧ body (Nat.iter (S n) (effect is_manifest) w) = body w
  ∧ load_listeners (Nat.iter (S n) (effect is_manifest) w)
    = (load_listeners w + if serviceWorker w then S n else 0)%nat.
Proof.
  assert (Hfound : ∀ k w0, manifests is_manifest w0 ≠ [] →
            head (Nat.iter k (effect is_manifest) w0) = head w0
            ∧ body (Nat.iter k (effect is_manifest) w0) = body w0
            ∧ serviceWorker (Nat.iter k (effect is_manifest) w0) = serviceWorker w0
            ∧ load_listeners (Nat.iter k (effect is_manifest) w0)
              = (load_listeners w0 + if serviceWorker w0 then k else 0)%nat
            ∧ manifests is_manifest (Nat.iter k (effect is_manifest) w0)
              = manifests is_manifest w0).
  { induction k as [|k IH]; intros w0 Hm.
    - cbn. repeat split. destruct (serviceWorker w0); lia.
    - destruct (IH w0 Hm) as (Hh & Hb & Hs & Hl & Hmm).
      rewrite Nat.iter_succ.
      assert (Hm' : manifests is_manifest (Nat.iter k (effect is_manifest) w0) ≠ [])
        by congruence.
      destruct (effect_found _ Hm') as (Hh' & Hb' & Hs' & Hl').
      rewrite Hh', Hb', Hs', Hl', Hh, Hb, Hs, Hl.
      repeat split; [destruct (serviceWorker w0); lia|].
      unfold manifests in *. rewrite Hh', Hb', Hh, Hb. reflexivity. }
  rewrite Nat.iter_succ_r.
  destruct (manifests is_manifest w) as [|e l] eqn:Hm.
  - destruct (effect_missing w Hm) as (Hh & Hb & Hs & Hl & Hone).
    assert (Hm' : manifests is_manifest (effect is_manifest w) ≠ [])
      by (rewrite Hone; discriminate).
    destruct (Hfound n _ Hm') as (Hh' & Hb' & Hs' & Hl' & _).
    rewrite Hh', Hb', Hl', Hh, Hb, Hs, Hl.
    repeat split; try congruence. destruct (serviceWorker w); lia.
  - assert (Hm0 : manifests is_manifest w ≠ []) by (rewrite Hm; discriminate).
    destruct (effect_found w Hm0) as (Hh & Hb & Hs & Hl).
    assert (Hm' : manifests is_manifest (effect is_manifest w) ≠ []).
    { unfold manifests in *. rewrite Hh, Hb. exact Hm0. }
    destruct (Hfound n _ Hm') as (Hh' & Hb' & Hs' & Hl' & _).
    rewrite Hh', Hb', Hl', Hh, Hb, Hs, Hl.
    repeat split; try congruence. destruct (serviceWorker w); lia.
Qed.

End Effect.

(** A selector that compares the tag and the [rel] attribute. *)
Definition by_tag_and_rel (e : Element) : bool :=
  String.eqb (tag e) "link" && String.eqb (rel e) "manifest".

Lemma manifest_added_once_witness :
  head (Nat.iter 2 (effect by_tag_and_rel)
          {| head := []; body := []; serviceWorker := true; load_listeners := 0 |})
  = [manifest_link]
  ∧ load_listeners
      (Nat.iter 2 (effect by_tag_and_rel)
         {| head := []; body := []; serviceWorker := true; load_listeners := 0 |})
    = 2%nat.
Proof.
  destruct (manifest_added_once by_tag_and_rel eq_refl 1
              {| head := []; body := []; serviceWorker := true;
                 load_listeners := 0 |}) as (Hnew & _ & _ & Hload).
  split; [apply Hnew; reflexivity | exact Hload].
Defined.

End RootFacts.

(** ** More on the normalizer *)

Module NormalizerMoreFacts.
Import Normalizer.

Lemma decimal_digits_nonempty (n : Z) : JS.decimal_digits n ≠ [].
Proof.
  unfold JS.decimal_digits.
  destruct (Z.to_nat (Z.log2 n)); cbn; [discriminate|].
  destruct (n <? 10); [discriminate|].
  generalize (n / 10).
  generalize [ascii_of_N (Z.to_N (48 + n mod 10))].
  induction n0 as [|k IH]; intros acc m; cbn; [discriminate|].
  destruct (m <? 10); [discriminate | apply IH].
Qed.

Lemma positive_to_chars_nonempty (u : Z) : JS.positive_to_chars u ≠ [].
Proof.
  unfold JS.positive_to_chars.
  destruct (JS.shortest u) as [[n k] s].
  pose proof (decimal_digits_nonempty s) as Hd.
  destruct (JS.decimal_digits s) as [|c ds]; [congruence|].
  repeat match goal with |- context [if ?b then _ else _] => destruct b end;
    try discriminate.
  all: intros H; apply app_eq_nil in H as [H1 H2];
    first [discriminate H1 | discriminate H2].
Qed.

Lemma NumberToString_nonempty (x : JS.number) : JS.NumberToString x ≠ [].
Proof.
  destruct x as [|neg|neg [|p]]; cbn.
  - discriminate.
  - destruct neg; discriminate.
  - discriminate.
  - pose proof (positive_to_chars_nonempty (Z.pos p)) as Hp.
    destruct neg; cbn; [discriminate|]. exact Hp.
Qed.

Lemma String_nonempty (x : JS.number) : JS.String x ≠ ""%string.
Proof.
  unfold JS.String. pose proof (NumberToString_nonempty x) as Hx.
  destruct (JS.NumberToString x); [congruence | discriminate].
Qed.

(** X18: The text handed to [speak] is empty only for an empty slug outside
    the numbers category: in the numbers category some text is spoken for
    every slug, in every other category the slug itself. *)
Theorem getSpeakText_empty (categoryKey word : string) :
  getSpeakText categoryKey word = ""%string ↔
  word = ""%string ∧ categoryKey ≠ "numbers"%string.
Proof.
  unfold getSpeakText.
  destruct (String.eqb_spec categoryKey "letters") as [->|Hl].
  - split; [intros ->; split; [reflexivity | discriminate] | tauto].
  - destruct (String.eqb_spec categoryKey "numbers") as [->|Hn].
    + split; [|tauto]. intros H. exfalso. revert H.
      unfold or_else.
      destruct (JS.array_get words (JS.Number word)) as [w|];
        [|apply String_nonempty].
      destruct (String.eqb_spec w ""); [apply String_nonempty | assumption].
    + split; [intros ->; split; [reflexivity | exact Hn] | tauto].
Qed.

End NormalizerMoreFacts.

(** ** The floating icons *)

Module FloatingFacts.
Import JS Floating.

Lemma round_half_even_upper (a b c : Z) :
  0 < b → a <= c * b → round_half_even a b <= c.
Proof.
  intros Hb Ha. unfold round_half_even.
  assert (Hd : a / b <= c) by (apply Z.div_le_upper_bound; lia).
  pose proof (Z.div_mod a b ltac:(lia)) as Hdm.
  pose proof (Z.mod_pos_bound a b Hb) as Hm.
  destruct (Z.eq_dec (a / b) c) as [Heq|Hne].
  - assert (Hr : a mod b = 0) by nia.
    rewrite Hr, Z.mul_0_r. destruct (0 ?= b) eqn:Hc.
    + apply Z.compare_eq in Hc. lia.
    + lia.
    + apply Z.compare_gt_iff in Hc. lia.
  - destruct (2 * (a mod b) ?= b); [destruct (Z.even (a / b))| |]; lia.
Qed.

Lemma round_half_even_ge (a b c : Z) :
  0 < b → c * b <= a → c <= round_half_even a b.
Proof.
  intros Hb Ha.
  pose proof (JSFacts.round_half_even_lower a b).
  assert (c <= a / b) by (apply Z.div_le_lower_bound; lia). lia.
Qed.

(** Rounding keeps a value between two integers below [2^53]. *)
Lemma round_units_between (neg : bool) (a b lo hi : Z) :
  0 < b → 0 <= lo → hi < 2 ^ 53 →
  lo * unit_scale * b <= a <= hi * unit_scale * b →
  ∃ r, round_units neg a b = Fin neg (Z.to_N r)
       ∧ lo * unit_scale <= r <= hi * unit_scale.
Proof.
  intros Hb Hlo Hhi [Hal Hah]. unfold round_units.
  assert (Hus : 0 < unit_scale) by (apply Z.pow_pos_nonneg; unfold emin; lia).
  assert (Ha0 : 0 <= a) by nia.
  assert (Ht0 : 0 <= a / b) by (apply Z.div_pos; lia).
  assert (Hthi : a / b <= hi * unit_scale)
    by (apply Z.div_le_upper_bound; nia).
  set (t := a / b) in *.
  set (s := if t <? 2 ^ 53 then 0 else Z.log2 t - 52).
  assert (Hs : 0 <= s <= emin).
  { unfold s. destruct (Z.ltb_spec t (2 ^ 53)) as [Hlt|Hge]; [unfold emin; lia|].
    assert (53 <= Z.log2 t) by (apply Z.log2_le_pow2; lia).
    assert (Z.log2 t < 53 + emin).
    { apply Z.log2_lt_pow2; [lia|].
      rewrite Z.pow_add_r by (unfold emin; lia). fold unit_scale. nia. }
    lia. }
  assert (Hsplit : unit_scale = 2 ^ (emin - s) * 2 ^ s).
  { unfold unit_scale. rewrite <- Z.pow_add_r by lia. f_equal. lia. }
  assert (Hp : 0 < 2 ^ s) by (apply Z.pow_pos_nonneg; lia).
  assert (Hq : 0 < 2 ^ (emin - s)) by (apply Z.pow_pos_nonneg; lia).
  set (p := 2 ^ s) in *. set (q := 2 ^ (emin - s)) in *.
  assert (Hup : round_half_even a (b * p) <= hi * q)
    by (apply round_half_even_upper; nia).
  assert (Hdown : lo * q <= round_half_even a (b * p))
    by (apply round_half_even_ge; nia).
  set (m := round_half_even a (b * p)) in *.
  assert (Hr : lo * unit_scale <= m * p <= hi * unit_scale) by nia.
  assert (Hover : m * p < overflow_threshold).
  { unfold overflow_threshold.
    apply Z.le_lt_trans with (hi * unit_scale); [lia|].
    apply Z.lt_le_trans with (2 ^ 53 * unit_scale); [nia|].
    unfold unit_scale. rewrite <- Z.pow_add_r by (unfold emin; lia).
    apply Z.pow_le_mono_r; unfold emin; lia. }
  destruct (Z.leb_spec overflow_threshold (m * p)); [lia|].
  exists (m * p). split; [reflexivity | exact Hr].
Qed.

Lemma of_nat_units (c : nat) :
  of_nat c = Fin false (Z.to_N (Z.of_nat c * unit_scale)).
Proof. reflexivity. Qed.

Lemma unit_scale_pos : 0 < unit_scale.
Proof. apply Z.pow_pos_nonneg; unfold emin; lia. Qed.

(** [c + r * d] for [r] of [[0, 1)] lies between [c] and [c + d]. *)
Lemma affine_between (c d : nat) (x : number) :
  unit_interval x → Z.of_nat c + Z.of_nat d < 2 ^ 53 →
  between c (c + d) (add (of_nat c) (mul x (of_nat d))).
Proof.
  intros (u & -> & Hu) Hsmall.
  pose proof unit_scale_pos as Hus.
  assert (Hprod : ∃ r, mul (Fin false u) (of_nat d) = Fin false (Z.to_N r)
                       ∧ 0 <= r <= Z.of_nat d * unit_scale).
  { rewrite of_nat_units. unfold mul. cbn [xorb].
    rewrite Z2N.id by nia.
    assert (Hbounds : 0 * unit_scale * unit_scale
                      <= Z.of_N u * (Z.of_nat d * unit_scale)
                      <= Z.of_nat d * unit_scale * unit_scale) by nia.
    destruct (round_units_between false _ unit_scale 0 (Z.of_nat d)
                Hus ltac:(lia) ltac:(lia) Hbounds) as (r & Hr & Hb).
    exists r. split; [exact Hr | lia]. }
  destruct Hprod as (r & -> & Hr).
  assert (Hsum : ∃ t, add (of_nat c) (Fin false (Z.to_N r)) = Fin false (Z.to_N t)
                      ∧ Z.of_nat c * unit_scale <= t
                         <= (Z.of_nat c + Z.of_nat d) * unit_scale).
  { rewrite of_nat_units. unfold add, to_units.
    rewrite !Z2N.id by nia.
    destruct (Z.eqb_spec (Z.of_nat c * unit_scale + r) 0) as [Hz|Hnz].
    - exists 0. split; [reflexivity | nia].
    - assert (Hpos : 0 < Z.of_nat c * unit_scale + r) by nia.
      destruct (Z.ltb_spec (Z.of_nat c * unit_scale + r) 0); [lia|].
      rewrite Z.abs_eq by lia.
      assert (Hbounds : Z.of_nat c * unit_scale * 1
                        <= Z.of_nat c * unit_scale + r
                        <= (Z.of_nat c + Z.of_nat d) * unit_scale * 1) by nia.
      destruct (round_units_between false _ 1 (Z.of_nat c)
                  (Z.of_nat c + Z.of_nat d)
                  ltac:(lia) ltac:(lia) ltac:(lia) Hbounds) as (t & Ht & Hb).
      exists t. split; [exact Ht | exact Hb]. }
  destruct Hsum as (t & -> & Ht).
  unfold between, le. rewrite !of_nat_units. unfold compare, to_units.
  rewrite !Z2N.id by nia.
  repeat split; try discriminate; rewrite Z.compare_gt_iff; nia.
Qed.

Section Placement.
Variable isMobile : bool.
Variable rand : nat → number.
Hypothesis Hrand : ∀ n, unit_interval (rand n).

Lemma draw_between (cursor : nat) :
  between (if isMobile then 8 else 5) (if isMobile then 92 else 95)
    (top (draw isMobile rand cursor))
  ∧ between 5 95 (left (draw isMobile rand cursor)).
Proof.
  unfold draw. cbn [top left]. split.
  - destruct isMobile.
    + apply (affine_between 8 84); [apply Hrand | cbn; lia].
    + apply (affine_between 5 90); [apply Hrand | cbn; lia].
  - apply (affine_between 5 90); [apply Hrand | cbn; lia].
Qed.

Lemma place_from_spec (more cursor tries : nat) :
  (10 <= tries + S more)%nat →
  let '(p, tries', cursor') := place_from more isMobile rand cursor tries in
  (tries < tries')%nat ∧ (tries' <= Nat.max 10 (S tries))%nat
  ∧ cursor' = (cursor + 2 * (tries' - tries))%nat
  ∧ p = draw isMobile rand (cursor' - 2)
  ∧ ((tries' < 10)%nat → in_centre isMobile p = false).
Proof.
  revert cursor tries. induction more as [|more IH]; intros cursor tries Hmore.
  - cbn [place_from].
    destruct (Nat.ltb_spec (S tries) 10) as [Hlt|Hge]; [lia|].
    rewrite andb_false_r.
    repeat split; [lia | lia | lia | f_equal; lia | lia].
  - cbn [place_from].
    destruct (in_centre isMobile (draw isMobile rand cursor)) eqn:Hc;
      destruct (Nat.ltb_spec (S tries) 10) as [Hlt|Hge]; cbn [andb].
    + specialize (IH (2 + cursor)%nat (S tries) ltac:(lia)).
      destruct (place_from more isMobile rand (2 + cursor) (S tries))
        as [[p t] c].
      destruct IH as (H1 & H2 & H3 & H4 & H5).
      repeat split; [lia | lia | lia | exact H4 | exact H5].
    + repeat split; [lia | lia | lia | f_equal; lia | lia].
    + repeat split; [lia | lia | lia | f_equal; lia | intros _; exact Hc].
    + repeat split; [lia | lia | lia | f_equal; lia | lia].
Qed.

(** X19: Every floating icon is placed after at most ten tries, each of two
    calls of [Math.random()], inside the band the code calls safe: [top]
    between 5 and 95 (8 and 92 on a phone) and [left] between 5 and 95.
    Unless all ten tries fell into the box around the title, the icon is
    outside that box. *)
Theorem icon_placement (cursor : nat) :
  let '(p, tries, cursor') := place isMobile rand cursor in
  (1 <= tries <= 10)%nat
  ∧ cursor' = (cursor + 2 * tries)%nat
  ∧ between (if isMobile then 8 else 5) (if isMobile then 92 else 95) (top p)
  ∧ between 5 95 (left p)
  ∧ ((tries < 10)%nat → in_centre isMobile p = false).
Proof.
  unfold place. pose proof (place_from_spec 10 cursor 0 ltac:(lia)) as H.
  destruct (place_from 10 isMobile rand cursor 0) as [[p t] c].
  destruct H as (H1 & H2 & H3 & H4 & H5).
  split; [lia|]. split; [lia|].
  rewrite H4. split; [apply draw_between | split; [apply draw_between|]].
  rewrite <- H4. exact H5.
Qed.

End Placement.

Lemma tenth_unit_interval : unit_interval (Number "0.1").
Proof.
  eexists. split; [vm_compute; reflexivity|]. vm_compute. reflexivity.
Qed.

Lemma icon_placement_witness :
  let '(p, tries, cursor') := place false (fun _ => Number "0.1") 0 in
  (1 <= tries <= 10)%nat ∧ between 5 95 (top p) ∧ between 5 95 (left p).
Proof.
  pose proof (icon_placement false (fun _ => Number "0.1")
                (fun _ => tenth_unit_interval) 0) as H.
  destruct (place false (fun _ => Number "0.1") 0) as [[p t] c].
  destruct H as (Ht & _ & Htop & Hleft & _).
  split; [exact Ht|]. split; [exact Htop | exact Hleft].
Defined.

End FloatingFacts.
